(** * dbxs: the query-binding engine of [dbxs/_access.py]

    A shallow embedding of the placeholder renderer, the signature binding,
    the cardinality loaders ([zero], [one], [maybe], [many]), the error
    attribution ([_ExceptionFixer]), the per-call result object
    ([MaybeAIterable]) and the accessor factory, followed by the properties
    proved about them.

    Conventions.
    - Python values are the inductive [object]; exceptions are [exn]; a call
      that may raise returns an [outcome].
    - Coroutines run against one driver cursor; they are functions from the
      cursor state to an outcome and the next cursor state.  Every driver
      call is recorded in the cursor's [log], so that how often the cursor
      was closed or advanced is a count over that log.
    - Async generators are step functions ([anext]) with an explicit
      [aclose]; a consumer iterating [n] elements calls [anext] [n] times.
    - The driver itself does not fail: opening a cursor, executing, fetching
      and closing always succeed.  The failures modelled are those of the
      binding engine and of the row-loaders.
    - Protocol methods take ordinary positional-or-keyword parameters. *)

From Stdlib Require Import Ascii.
From stdpp Require Import gmap strings list.

(** ** Values, exceptions, outcomes *)

#[warnings="-register-all"]
Inductive object : Type :=
| PyNone
| PyInt (n : Z)
| PyStr (s : string)
| PyTuple (items : list object).

(** Code objects and frames as far as a traceback shows them: the code's
    name, file and first line, and the frame's current line. *)
Record CodeType : Type := mkCode {
  co_name : string;
  co_filename : string;
  co_firstlineno : nat;
}.

Record FrameType : Type := mkFrame {
  f_code : CodeType;
  f_lineno : nat;
}.

Record TracebackEntry : Type := mkTb {
  tb_frame : FrameType;
  tb_lasti : nat;
  tb_lineno : nat;
}.

Inductive exn : Type :=
| TypeError (msg : string)
| ValueError (msg : string)
| KeyError (key : string)
| AttributeError (msg : string)
| ParamMismatch (method : string) (placeholders params : list string)
| NotEnoughResults
| TooManyResults (msg : string)
| ExtraneousMethods (names : list string)
| WrongRowShape (loader : string) (row : list object)
                (traceback : list TracebackEntry) (cause : exn)
| OtherError (name : string)
| OutsideModel (what : string).

(** [except TypeError] catches [TypeError] and its subclasses;
    [WrongRowShape] is declared as a subclass of [TypeError]. *)
Definition isTypeError (e : exn) : bool :=
  match e with
  | TypeError _ | WrongRowShape _ _ _ _ => true
  | _ => false
  end.

Inductive outcome (A : Type) : Type :=
| Returns (a : A)
| Raises (e : exn).
Arguments Returns {A} a.
Arguments Raises {A} e.

#[global] Instance outcome_ret : MRet outcome := fun _ a => Returns a.
#[global] Instance outcome_bind : MBind outcome := fun _ _ k m =>
  match m with
  | Returns a => k a
  | Raises e => Raises e
  end.

(** ** Placeholder renderer

    [IndexCountingParamstyleMap] is the mapping handed to [str.format_map]:
    every lookup appends the looked-up name to [names] and answers with the
    dialect's token. *)

Record IndexCountingParamstyleMap : Type := mkMap {
  placeholder : string;
  names : list string;
}.

Definition getitem (self : IndexCountingParamstyleMap) (name : string)
  : string * IndexCountingParamstyleMap :=
  (placeholder self, mkMap (placeholder self) (names self ++ [name])).

(** *** [str.format_map]

    The scanner of Python's format strings, restricted to what a SQL template
    uses: literal text, the escapes [{{] and [}}], and replacement fields
    [{name}] looked up by key.  A field with a conversion ([!]), a format
    specification ([:]) or an attribute or index lookup ([.], [[]) is not
    modelled: the scanner stops there with [OutsideModel], which says nothing
    about what Python does with such a field (it may render it or fail, and
    differently for the two tokens).  An empty or all-digit field name is a
    positional field, which [format_map] refuses; a name whose leading digits
    pass the largest index is refused whatever follows them. *)

Inductive scan : Type :=
| Text                  (* in literal text *)
| Opened                (* just read a [{] *)
| Closed                (* just read a [}] *)
| Field (acc : string). (* inside a replacement field, name read so far *)

Definition isDigit (c : ascii) : bool :=
  bool_decide (48 ≤ nat_of_ascii c ≤ 57)%nat.

Fixpoint allDigits (s : string) : bool :=
  match s with
  | EmptyString => true
  | String c s' => isDigit c && allDigits s'
  end.

(** An empty first part means auto-numbering, a decimal one an index. *)
Definition positionalField (name : string) : bool := allDigits name.

Definition digitValue (c : ascii) : N := N.of_nat (nat_of_ascii c - 48).

(** The largest index: [PY_SSIZE_T_MAX] of a 64-bit build. *)
Definition PY_SSIZE_T_MAX : N := 9223372036854775807%N.

(** Reading a name as an index accumulates its decimal digits from the left
    and gives up at the first other character; it fails as soon as the
    digits read pass the largest index. *)
Fixpoint tooManyDigits (accumulator : N) (name : string) : bool :=
  match name with
  | EmptyString => false
  | String c name' =>
      isDigit c &&
      (((PY_SSIZE_T_MAX - digitValue c) / 10 <? accumulator)%N
       || tooManyDigits (accumulator * 10 + digitValue c) name')
  end.

Definition snoc (s : string) (c : ascii) : string := s +:+ String c EmptyString.

(** One character inside a replacement field whose name so far is [acc]. *)
Definition fieldChar (acc : string) (c : ascii) (out : string)
    (m : IndexCountingParamstyleMap)
  : outcome (scan * string * IndexCountingParamstyleMap) :=
  if decide (c = "}"%char) then
    if tooManyDigits 0 acc
    then Raises (ValueError "Too many decimal digits in format string")
    else if positionalField acc
    then Raises (ValueError "Format string contains positional fields")
    else let '(tok, m') := getitem m acc in Returns (Text, out +:+ tok, m')
  else if decide (c = "{"%char) then
    Raises (ValueError "unexpected '{' in field name")
  else if decide (c = "!"%char) then Raises (OutsideModel "conversion")
  else if decide (c = ":"%char) then Raises (OutsideModel "format specification")
  else if decide (c = "."%char) then Raises (OutsideModel "attribute lookup")
  else if decide (c = "["%char) then Raises (OutsideModel "index lookup")
  else Returns (Field (snoc acc c), out, m).

Definition scanChar (st : scan) (c : ascii) (out : string)
    (m : IndexCountingParamstyleMap)
  : outcome (scan * string * IndexCountingParamstyleMap) :=
  match st with
  | Text =>
      if decide (c = "{"%char) then Returns (Opened, out, m)
      else if decide (c = "}"%char) then Returns (Closed, out, m)
      else Returns (Text, snoc out c, m)
  | Opened =>
      if decide (c = "{"%char) then Returns (Text, snoc out c, m)
      else fieldChar EmptyString c out m
  | Closed =>
      if decide (c = "}"%char) then Returns (Text, snoc out c, m)
      else Raises (ValueError "Single '}' encountered in format string")
  | Field acc => fieldChar acc c out m
  end.

Definition scanEnd (st : scan) (out : string) (m : IndexCountingParamstyleMap)
  : outcome (string * IndexCountingParamstyleMap) :=
  match st with
  | Text => Returns (out, m)
  | Opened => Raises (ValueError "Single '{' encountered in format string")
  | Closed => Raises (ValueError "Single '}' encountered in format string")
  | Field _ => Raises (ValueError "expected '}' before end of string")
  end.

Fixpoint vformat (s : string) (st : scan) (out : string)
    (m : IndexCountingParamstyleMap)
  : outcome (string * IndexCountingParamstyleMap) :=
  match s with
  | EmptyString => scanEnd st out m
  | String c s' =>
      match scanChar st c out m with
      | Returns (st', out', m') => vformat s' st' out' m'
      | Raises e => Raises e
      end
  end.

Definition format_map (sql : string) (mapInstance : IndexCountingParamstyleMap)
  : outcome (string * IndexCountingParamstyleMap) :=
  vformat sql Text EmptyString mapInstance.

(** The static table of supported dialects. *)
Definition styles : list (string * (unit → IndexCountingParamstyleMap)) :=
  [ ("qmark", fun _ => mkMap "?" []);
    ("pyformat", fun _ => mkMap "%s" []) ].

(** ** Signatures and argument binding

    [inspect.signature], [Signature.bind] and [BoundArguments.apply_defaults]
    for methods whose parameters are all of the ordinary
    positional-or-keyword kind, each with or without a default. *)

Record Param : Type := mkParam {
  param_name : string;
  param_default : option object;
}.

Abbreviation Signature := (list Param).

Definition parameters (sig : Signature) : list string := param_name <$> sig.

(** Positional phase: arguments are paired with parameters from the left. *)
Fixpoint bindPositional (params : list Param) (args : list object)
    (kwargs arguments : gmap string object) {struct args}
  : outcome (list Param * gmap string object) :=
  match args with
  | [] => Returns (params, arguments)
  | arg_val :: args' =>
      match params with
      | [] => Raises (TypeError "too many positional arguments")
      | param :: params' =>
          match kwargs !! param_name param with
          | Some _ => Raises (TypeError "multiple values for argument")
          | None =>
              bindPositional params' args' kwargs
                (<[param_name param := arg_val]> arguments)
          end
      end
  end.

(** Keyword phase: every remaining parameter is popped from [kwargs], or
    left out when it has a default. *)
Fixpoint bindKeywords (params : list Param)
    (kwargs arguments : gmap string object)
  : outcome (gmap string object * gmap string object) :=
  match params with
  | [] => Returns (kwargs, arguments)
  | param :: params' =>
      match kwargs !! param_name param with
      | Some arg_val =>
          bindKeywords params' (delete (param_name param) kwargs)
            (<[param_name param := arg_val]> arguments)
      | None =>
          match param_default param with
          | Some _ => bindKeywords params' kwargs arguments
          | None => Raises (TypeError "missing a required argument")
          end
      end
  end.

Definition bind (sig : Signature) (args : list object)
    (kwargs : gmap string object) : outcome (gmap string object) :=
  '(rest, arguments) ← bindPositional sig args kwargs ∅;
  '(kwargs', arguments') ← bindKeywords rest kwargs arguments;
  if decide (kwargs' = ∅) then Returns arguments'
  else Raises (TypeError "got an unexpected keyword argument").

(** [dict(pairs)]: later pairs win. *)
Definition dict {V : Type} (pairs : list (string * V)) : gmap string V :=
  foldl (fun d kv => <[kv.1 := kv.2]> d) ∅ pairs.

(** The pair [apply_defaults] collects for one parameter: the bound
    value, else the default, else nothing. *)
Definition defaulted (arguments : gmap string object) (param : Param)
  : option (string * object) :=
  match arguments !! param_name param with
  | Some val => Some (param_name param, val)
  | None =>
      match param_default param with
      | Some val => Some (param_name param, val)
      | None => None
      end
  end.

Definition apply_defaults (sig : Signature) (arguments : gmap string object)
  : gmap string object :=
  dict (omap (defaulted arguments) sig).

(** [[bound.arguments[each] for each in self.names]] *)
Fixpoint lookupEach (bound : gmap string object) (each : list string)
  : outcome (list object) :=
  match each with
  | [] => Returns []
  | name :: rest =>
      match bound !! name with
      | None => Raises (KeyError name)
      | Some val => vals ← lookupEach bound rest; Returns (val :: vals)
      end
  end.

Definition queryArguments (self : IndexCountingParamstyleMap)
    (bound : gmap string object) : outcome (list object) :=
  lookupEach bound (names self).

(** ** The driver: connection and cursor

    The connection and cursor classes of [dbxs.async_dbapi] are not among
    the sources; they are modelled from the interface the specification
    gives them: [paramstyle] and [cursor()] on the connection, [execute],
    [fetchone], [fetchall] and [close] on the cursor. *)

(** Modelled from the spec: the calls a cursor of [async_dbapi] accepts. *)
Inductive DriverCall : Type :=
| Execute (operation : string) (params : list object)
| Fetchone
| Fetchall
| Close.

(** Modelled from the spec: [async_dbapi.AsyncCursor], as the rows the
    driver has not handed out yet and the log of the calls made on it. *)
Record AsyncCursor : Type := mkCursor {
  pending : list (list object);
  log : list DriverCall;
}.

(** Modelled from the spec: [async_dbapi.AsyncConnection], as its dialect
    key and the database behind it: the rows a statement produces for given
    positional parameters. *)
Record AsyncConnection : Type := mkConnection {
  paramstyle : string;
  respond : string → list object → list (list object);
}.

Record AccessProxy : Type := mkProxy {
  __query_connection__ : AsyncConnection;
}.

Definition Coroutine (A : Type) : Type := AsyncCursor → outcome A * AsyncCursor.

Definition await {A B : Type} (co : Coroutine A) (k : A → Coroutine B)
  : Coroutine B :=
  fun c => match co c with
           | (Returns a, c') => k a c'
           | (Raises e, c') => (Raises e, c')
           end.

Definition ret {A : Type} (a : A) : Coroutine A := fun c => (Returns a, c).
Definition raise {A : Type} (e : exn) : Coroutine A := fun c => (Raises e, c).
Definition lift {A : Type} (r : outcome A) : Coroutine A := fun c => (r, c).

Notation "x '<~' 'await' co ';;' k" := (await co (fun x => k))
  (at level 100, co at next level, right associativity, only parsing).

(** Modelled from the spec: [AsyncConnection.cursor()], a fresh cursor. *)
Definition cursor (conn : AsyncConnection) : AsyncCursor := mkCursor [] [].

(** Modelled from the spec: [AsyncCursor.execute(sql, params)]; the result
    set replaces what was pending. *)
Definition execute (conn : AsyncConnection) (operation : string)
    (params : list object) : Coroutine unit :=
  fun c => (Returns tt,
            mkCursor (respond conn operation params)
                     (log c ++ [Execute operation params])).

(** Modelled from the spec: [AsyncCursor.fetchone()], the next row or
    [None]. *)
Definition fetchone : Coroutine (option (list object)) :=
  fun c => match pending c with
           | [] => (Returns None, mkCursor [] (log c ++ [Fetchone]))
           | row :: rows => (Returns (Some row), mkCursor rows (log c ++ [Fetchone]))
           end.

(** Modelled from the spec: [AsyncCursor.fetchall()], all remaining rows. *)
Definition fetchall : Coroutine (list (list object)) :=
  fun c => (Returns (pending c), mkCursor [] (log c ++ [Fetchall])).

(** Modelled from the spec: [AsyncCursor.close()]. *)
Definition close : Coroutine unit :=
  fun c => (Returns tt, mkCursor (pending c) (log c ++ [Close])).

Definition isClose (d : DriverCall) : bool :=
  match d with Close => true | _ => false end.
Definition isFetchone (d : DriverCall) : bool :=
  match d with Fetchone => true | _ => false end.

Definition closes (c : AsyncCursor) : nat := length (filter isClose (log c)).
Definition advances (c : AsyncCursor) : nat := length (filter isFetchone (log c)).

(** ** Error attribution *)

(** A row-loader: a function defined in some source file, called as
    [load(db, *row)].  Its outcome on a row of the wrong shape is a
    [TypeError]. *)
Record Loader : Type := mkLoader {
  __module__ : string;
  __name__ : string;
  getsourcefile : option string;
  getsourcelines : nat;   (* the line its definition starts on *)
  call : AccessProxy → list object → outcome object;
}.

Record _ExceptionFixer : Type := mkFixer {
  loader : Loader;
  definitionLine : nat;
  decorationLine : nat;
  decorationFrame : FrameType;
  definitionFrame : FrameType;
}.

(** The frame a function returning [currentframe()] runs in, once its code
    object has been renamed and moved: the body is the line after the
    header. *)
Definition fakeFrame (name filename : string) (firstlineno : nat) : FrameType :=
  mkFrame (mkCode name filename firstlineno) (S firstlineno).

(** [definedSourceFile or "unknown definition"], with
    [definedSourceFile = getsourcefile(loader)]: a missing or empty file
    name gives the default. *)
Definition definedSourceFile (load : Loader) : string :=
  match getsourcefile load with
  | Some file => if decide (file = EmptyString) then "unknown definition" else file
  | None => "unknown definition"
  end.

(** [_ExceptionFixer.create].  [realDecorationFrame] is the frame two levels
    up from [create]: the caller of [one], [maybe] or [many]. *)
Definition create (realDecorationFrame : FrameType) (load : Loader)
  : _ExceptionFixer :=
  let definitionLine := getsourcelines load in
  let decoratedHere :=
    fakeFrame "<<decorated here>>"
              (co_filename (f_code realDecorationFrame))
              (f_lineno realDecorationFrame) in
  let definedHere :=
    fakeFrame "<<defined here>>" (definedSourceFile load) definitionLine in
  {| loader := load;
     definitionFrame := definedHere;
     definitionLine := definitionLine;
     decorationFrame := decoratedHere;
     decorationLine := f_lineno realDecorationFrame |}.

(** [reraise]: the traceback chain starts at the definition entry, whose
    [tb_next] is the decoration entry; the original exception is the cause. *)
Definition reraise {A : Type} (self : _ExceptionFixer) (row : list object)
    (e : exn) : outcome A :=
  let withDecorationAdded := mkTb (decorationFrame self) 0 (decorationLine self) in
  let withDefinitionAdded := mkTb (definitionFrame self) 0 (definitionLine self) in
  Raises (WrongRowShape
            (__module__ (loader self) +:+ "." +:+ __name__ (loader self))
            row
            [withDefinitionAdded; withDecorationAdded]
            e).

(** [try: load(db, *row) except TypeError as e: fixer.reraise(row, e)] *)
Definition loadRow (fixer : _ExceptionFixer) (load : Loader) (db : AccessProxy)
    (row : list object) : outcome object :=
  match call load db row with
  | Returns v => Returns v
  | Raises e => if isTypeError e then reraise fixer row e else Raises e
  end.

(** ** Cardinality loaders *)

(** What an async generator does when resumed. *)
Inductive step : Type :=
| Yield (v : object)
| Return
| Throw (e : exn).

(** An async generator object: its body from the point it is suspended at,
    and whether it has finished. *)
Record AsyncGenerator : Type := mkGen {
  resume : AsyncCursor → step * AsyncCursor;
  finished : bool;
}.

Definition anext (g : AsyncGenerator) (c : AsyncCursor)
  : step * AsyncGenerator * AsyncCursor :=
  if finished g then (Return, g, c)
  else match resume g c with
       | (Yield v, c') => (Yield v, g, c')
       | (s, c') => (s, mkGen (resume g) true, c')
       end.

(** What calling [load(proxySelf, cur)] gives: a coroutine to await or an
    async generator to iterate. *)
Inductive Loaded : Type :=
| Awaitable (co : Coroutine object)
| AIterable (gen : AsyncGenerator).

Definition _makeTranslator (fixer : _ExceptionFixer) (load : Loader)
    (noResults : unit → outcome object) (db : AccessProxy) : Coroutine object :=
  rows <~ await fetchall ;;
  if (length rows <? 1)%nat then lift (noResults tt)
  else if (1 <? length rows)%nat then raise (TooManyResults EmptyString)
  else match rows with
       | [row] => lift (loadRow fixer load db row)
       | _ => raise (ValueError "cannot unpack")
       end.

Definition one (caller : FrameType) (load : Loader) (db : AccessProxy) : Loaded :=
  let fixer := create caller load in
  let noResults := fun _ : unit => Raises NotEnoughResults in
  Awaitable (_makeTranslator fixer load noResults db).

Definition maybe (caller : FrameType) (load : Loader) (db : AccessProxy) : Loaded :=
  let fixer := create caller load in
  let noResults := fun _ : unit => Returns PyNone in
  Awaitable (_makeTranslator fixer load noResults db).

(** One turn of the [while True] loop of [translateMany]. *)
Definition translateMany (fixer : _ExceptionFixer) (load : Loader)
    (db : AccessProxy) (c : AsyncCursor) : step * AsyncCursor :=
  match fetchone c with
  | (Returns None, c') => (Return, c')
  | (Returns (Some row), c') =>
      match loadRow fixer load db row with
      | Returns v => (Yield v, c')
      | Raises e => (Throw e, c')
      end
  | (Raises e, c') => (Throw e, c')
  end.

Definition many (caller : FrameType) (load : Loader) (db : AccessProxy) : Loaded :=
  let fixer := create caller load in
  AIterable (mkGen (translateMany fixer load db) false).

Definition zero (loader : AccessProxy) : Loaded :=
  Awaitable (
    result <~ await fetchone ;;
    match result with
    | Some _ => raise (TooManyResults "statemnts should not return values")
    | None => ret PyNone
    end).

(** Iterating a generator to its end, [async for] style; [fuel] bounds the
    number of resumptions.  The answer is the elements produced, how the
    iteration ended ([None]: fuel ran out) and the cursor. *)
Fixpoint asyncFor (fuel : nat) (g : AsyncGenerator) (c : AsyncCursor)
  : list object * option step * AsyncCursor :=
  match fuel with
  | O => ([], None, c)
  | S fuel' =>
      match anext g c with
      | (Yield v, g', c') =>
          let '(vs, fin, c'') := asyncFor fuel' g' c' in (v :: vs, fin, c'')
      | (s, _, c') => ([], Some s, c')
      end
  end.

(** ** Query declaration metadata *)

(** A method of the protocol as [setOn] sees it: its name and signature,
    receiver included. *)
Record ProtocolMethod : Type := mkMethod {
  def_name : string;
  signature : Signature;
}.

(** The closure [proxyMethod] built by [setOn]: the variables it captures. *)
Record ProxyMethod : Type := mkProxyMethod {
  sig : Signature;
  precomputedSQL : gmap string (string * IndexCountingParamstyleMap);
  self_load : AccessProxy → Loaded;
}.

(** A [QueryMetadata] as it is attached to a protocol method: [setOn] stores
    [proxyMethod] before it attaches the metadata. *)
Record QueryMetadata : Type := mkQueryMetadata {
  sql : string;
  load : AccessProxy → Loaded;
  proxyMethod : ProxyMethod;
}.

(** The loop over [styles.items()]: one fresh map and one rendering per
    dialect. *)
Definition renderStyles (template : string)
  : outcome (gmap string (string * IndexCountingParamstyleMap)) :=
  foldl (fun acc item =>
           precomputed ← acc;
           let mapInstance := item.2 tt in
           '(styledSQL, mapInstance') ← format_map template mapInstance;
           Returns (<[item.1 := (styledSQL, mapInstance')]> precomputed))
        (Returns ∅) styles.

Definition setOn (self_sql : string) (self_load : AccessProxy → Loaded)
    (protocolMethod : ProtocolMethod) : outcome QueryMetadata :=
  let sig := signature protocolMethod in
  precomputedSQL ← renderStyles self_sql;
  match precomputedSQL !! "qmark" with
  | None => Raises (KeyError "qmark")
  | Some (sampleSQL, sampleInstance) =>
      let selfExcluded := drop 1 (parameters sig) in
      if decide (list_to_set (names sampleInstance)
                 ≠@{gset string} list_to_set selfExcluded)
      then Raises (ParamMismatch (def_name protocolMethod)
                     (names sampleInstance) selfExcluded)
      else Returns (mkQueryMetadata self_sql self_load
                      (mkProxyMethod sig precomputedSQL self_load))
  end.

(** [@query(sql=..., load=...)] and [@statement(sql=...)] applied to a
    method: the metadata attached to it. *)
Definition query (sql : string) (load : AccessProxy → Loaded)
    (f : ProtocolMethod) : outcome QueryMetadata :=
  setOn sql load f.

Definition statement (sql : string) (f : ProtocolMethod)
  : outcome QueryMetadata :=
  query sql zero f.

(** ** One call of a proxy method *)

(** The objects a call creates: the cursor, once [conn.cursor()] has run, and
    the [cursor] attribute of the [MaybeAIterable], which is the same cursor
    object once it has been assigned. *)
Record CallState : Type := mkCall {
  cur : option AsyncCursor;
  maybeai_cursor : bool;
}.

Inductive Delivered : Type :=
| Value (result : object)
| Stream (maybeAgen : AsyncGenerator).

(** The end of [body], from [maybeAgen = self.load(proxySelf, cur)] on, with
    [cur] the cursor the statement has been executed on. *)
Definition handOff (pm : ProxyMethod) (proxySelf : AccessProxy)
    (cur : AsyncCursor) : outcome Delivered * CallState :=
  match self_load pm proxySelf with
  | Awaitable maybeAgen =>
      match maybeAgen cur with
      | (Returns result, cur) =>
          (Returns (Value result), mkCall (Some (close cur).2) false)
      | (Raises e, cur) => (Raises e, mkCall (Some cur) false)
      end
  | AIterable maybeAgen =>
      (Returns (Stream maybeAgen), mkCall (Some cur) true)
  end.

Definition body (pm : ProxyMethod) (proxySelf : AccessProxy)
    (args : list object) (kw : gmap string object)
  : outcome Delivered * CallState :=
  let conn := __query_connection__ proxySelf in
  match precomputedSQL pm !! paramstyle conn with
  | None => (Raises (KeyError (paramstyle conn)), mkCall None false)
  | Some (styledSQL, styledMap) =>
      let cur := cursor conn in
      match bind (sig pm) (PyNone :: args) kw with
      | Raises e => (Raises e, mkCall (Some cur) false)
      | Returns bound =>
          let bound := apply_defaults (sig pm) bound in
          match queryArguments styledMap bound with
          | Raises e => (Raises e, mkCall (Some cur) false)
          | Returns params =>
              handOff pm proxySelf (execute conn styledSQL params cur).2
          end
      end
  end.

(** The result object of a call.  [down] is the coroutine [body()]; nothing
    of it has run until the object is awaited or iterated. *)
Record MaybeAIterable : Type := mkMaybeAIterable {
  down : outcome Delivered * CallState;
}.

Definition call_proxyMethod (pm : ProxyMethod) (proxySelf : AccessProxy)
    (args : list object) (kw : gmap string object) : MaybeAIterable :=
  mkMaybeAIterable (body pm proxySelf args kw).

(** [await maybeai] *)
Definition __await__ (self : MaybeAIterable) : outcome Delivered * CallState :=
  down self.

(** [finally: await self.cursor.close()] with [s] the way the [try] block was
    left.  Reading an attribute that was never assigned raises. *)
Definition finallyClose (s : step) (st : CallState) : step * CallState :=
  if maybeai_cursor st
  then (s, mkCall ((fun c => (close c).2) <$> cur st) true)
  else (Throw (AttributeError "cursor"), st).

(** The async generator [__aiter__]: not started, suspended at [yield each]
    with [actuallyiter] in hand, or finished. *)
Inductive Phase : Type :=
| NotStarted
| Streaming (actuallyiter : AsyncGenerator)
| Finished.

Record Aiter : Type := mkAiter {
  phase : Phase;
  state : CallState;
}.

Definition __aiter__ (self : MaybeAIterable) : Aiter :=
  mkAiter NotStarted (mkCall None false).

(** [async for each in actuallyiter: yield each], up to the next [yield]. *)
Definition forward (actuallyiter : AsyncGenerator) (st : CallState)
  : step * Aiter :=
  match cur st with
  | None => let '(s, st') := finallyClose (Throw (AttributeError "cursor")) st in
            (s, mkAiter Finished st')
  | Some c =>
      match anext actuallyiter c with
      | (Yield each, g', c') =>
          (Yield each, mkAiter (Streaming g') (mkCall (Some c') (maybeai_cursor st)))
      | (s, _, c') =>
          let '(s', st') := finallyClose s (mkCall (Some c') (maybeai_cursor st)) in
          (s', mkAiter Finished st')
      end
  end.

Definition aiter_anext (self : MaybeAIterable) (it : Aiter) : step * Aiter :=
  match phase it with
  | Finished => (Return, it)
  | Streaming actuallyiter => forward actuallyiter (state it)
  | NotStarted =>
      match __await__ self with
      | (Returns (Stream actuallyiter), st) => forward actuallyiter st
      | (Returns (Value _), st) =>
          let '(s, st') :=
            finallyClose (Throw (TypeError "'async for' requires __aiter__")) st in
          (s, mkAiter Finished st')
      | (Raises e, st) =>
          let '(s, st') := finallyClose (Throw e) st in
          (s, mkAiter Finished st')
      end
  end.

(** Abandoning the iteration: [aclose()] raises [GeneratorExit] at the
    [yield] the generator is suspended at, which runs the [finally]. *)
Definition aiter_aclose (it : Aiter) : Aiter :=
  match phase it with
  | Streaming _ => mkAiter Finished (finallyClose Return (state it)).2
  | _ => mkAiter Finished (state it)
  end.

(** A consumer that asks for at most [n] elements. *)
Fixpoint consume (n : nat) (self : MaybeAIterable) (it : Aiter)
  : list object * option step * Aiter :=
  match n with
  | O => ([], None, it)
  | S n' =>
      match aiter_anext self it with
      | (Yield v, it') =>
          let '(vs, fin, it'') := consume n' self it' in (v :: vs, fin, it'')
      | (s, it') => ([], Some s, it')
      end
  end.

(** ... and then abandons the iterator. *)
Definition consumeAndClose (n : nat) (self : MaybeAIterable)
  : list object * option step * Aiter :=
  let '(vs, fin, it) := consume n self (__aiter__ self) in
  (vs, fin, aiter_aclose it).

(** How often the cursor of a call was closed; [0] when none was opened. *)
Definition closed (st : CallState) : nat :=
  match cur st with
  | Some c => closes c
  | None => 0
  end.

(** ** Accessor factory *)

Inductive NamespaceValue : Type :=
| PlainObject
| QueryMethod (qm : QueryMetadata).

Definition loadFrom (f : NamespaceValue) : option QueryMetadata :=
  match f with
  | QueryMethod self => Some self
  | PlainObject => None
  end.

Record ProtocolClass : Type := mkProtocol {
  class_name : string;
  __dict__ : list (string * NamespaceValue);
}.

Record ProxyType : Type := mkType {
  type_name : string;
  bases : list string;
  namespace : gmap string ProxyMethod;
}.

Section Accessor.

(** The attribute names of an empty protocol class; they depend on the
    Python version. *)
Variable PROTOCOL_IGNORED_ATTRIBUTES : gset string.

(** The generator [filterProtocolNamespace]: the pairs it yields and the
    names it has collected when the loop ends. *)
Fixpoint filterLoop (protocolNamespace : list (string * NamespaceValue))
    (extraneous : list string)
  : list (string * QueryMetadata) * list string :=
  match protocolNamespace with
  | [] => ([], extraneous)
  | (attrname, value) :: rest =>
      match loadFrom value with
      | None =>
          if decide (attrname ∉ PROTOCOL_IGNORED_ATTRIBUTES)
          then filterLoop rest (extraneous ++ [attrname])
          else filterLoop rest extraneous
      | Some qm =>
          let '(yielded, extraneous') := filterLoop rest extraneous in
          ((attrname, qm) :: yielded, extraneous')
      end
  end.

(** The pairs yielded, and the exception raised after the last one. *)
Definition filterProtocolNamespace
    (protocolNamespace : list (string * NamespaceValue))
  : list (string * QueryMetadata) * option exn :=
  let '(yielded, extraneous) := filterLoop protocolNamespace [] in
  (yielded,
   match extraneous with
   | [] => None
   | _ => Some (ExtraneousMethods extraneous)
   end).

(** The dict comprehension runs the generator to its end before [type] is
    called. *)
Definition accessor (accessPatternProtocol : ProtocolClass)
  : outcome ProxyType :=
  match filterProtocolNamespace (__dict__ accessPatternProtocol) with
  | (_, Some e) => Raises e
  | (yielded, None) =>
      Returns (mkType ("_" +:+ class_name accessPatternProtocol +:+ "_Accessor")
                 ["AccessProxy"]
                 (dict ((fun item => (item.1, proxyMethod item.2)) <$> yielded)))
  end.

End Accessor.

(** ** Templates as the specification describes them

    A SQL template with [{name}]-style placeholders is a sequence of literal
    characters and named placeholders.  [templateText] writes it as the
    string a declaration carries (braces in literal text are doubled),
    [rendered] is that text with the dialect's token in the place of each
    placeholder, [placeholderOrder] the names from left to right. *)

Inductive Piece : Type :=
| Lit (c : ascii)
| Placeholder (name : string).

Definition pieceText (p : Piece) : string :=
  match p with
  | Lit c =>
      if decide (c = "{"%char) then "{{"
      else if decide (c = "}"%char) then "}}"
      else String c EmptyString
  | Placeholder name => "{" +:+ name +:+ "}"
  end.

Definition templateText (t : list Piece) : string :=
  foldr (fun p s => pieceText p +:+ s) EmptyString t.

Definition rendered (token : string) (t : list Piece) : string :=
  foldr (fun p s =>
           match p with
           | Lit c => String c s
           | Placeholder _ => token +:+ s
           end) EmptyString t.

Definition placeholderOrder (t : list Piece) : list string :=
  omap (fun p => match p with Placeholder name => Some name | Lit _ => None end) t.

(** A placeholder name is a key: not empty, not a number, not one whose
    leading digits pass the largest index, and free of the characters that
    end or structure a replacement field. *)
Definition nameChar (c : ascii) : bool :=
  bool_decide (c ∉ ["}"; "{"; "!"; ":"; "."; "["]%char).

Fixpoint nameChars (s : string) : bool :=
  match s with
  | EmptyString => true
  | String c s' => nameChar c && nameChars s'
  end.

Definition keywordPiece (p : Piece) : bool :=
  match p with
  | Lit _ => true
  | Placeholder name =>
      nameChars name && negb (allDigits name) && negb (tooManyDigits 0 name)
  end.

Definition namedPlaceholders (t : list Piece) : Prop :=
  forallb keywordPiece t = true.

(** ** Notions the statements use *)

(** The names a rendering records do not depend on the dialect's token, and
    neither does whether the template is accepted. *)
Definition sameOrder {A : Type}
    (r1 r2 : outcome (A * IndexCountingParamstyleMap)) : Prop :=
  match r1, r2 with
  | Returns (_, m1), Returns (_, m2) => names m1 = names m2
  | Raises e1, Raises e2 => e1 = e2
  | _, _ => False
  end.

(** How often [name] is a placeholder of the template. *)
Fixpoint occurrences (name : string) (t : list Piece) : nat :=
  match t with
  | [] => 0
  | Lit _ :: t' => occurrences name t'
  | Placeholder n :: t' =>
      (if decide (n = name) then 1 else 0) + occurrences name t'
  end.





(** The exception [e] comes out of the coroutine the declaration's loader
    made for this call. *)
Definition raisedByLoader (load : AccessProxy → Loaded) (proxySelf : AccessProxy)
    (e : exn) : Prop :=
  ∃ co c c', load proxySelf = Awaitable co ∧ co c = (Raises e, c').

(** [await maybeAgen] for what a loader returned; an async generator cannot
    be awaited. *)
Definition awaited (maybeAgen : Loaded) : Coroutine object :=
  match maybeAgen with
  | Awaitable co => co
  | AIterable _ => raise (TypeError "object can't be used in 'await' expression")
  end.

(** What [body] makes of the awaited loader: its value after closing the
    cursor, or its exception. *)
Definition delivered (r : outcome object * AsyncCursor)
  : outcome Delivered * CallState :=
  match r with
  | (Returns result, cur) =>
      (Returns (Value result), mkCall (Some (close cur).2) false)
  | (Raises e, cur) => (Raises e, mkCall (Some cur) false)
  end.


(** The members of a protocol namespace by kind: the names without
    metadata, those of them outside a set of ignored names, and the
    closures of the members with metadata. *)
Definition unannotated (ns : list (string * NamespaceValue)) : list string :=
  omap (fun item => match loadFrom item.2 with
                    | None => Some item.1
                    | Some _ => None
                    end) ns.

Definition extraneousNames (ignored : gset string)
    (ns : list (string * NamespaceValue)) : list string :=
  filter (fun attrname => attrname ∉ ignored) (unannotated ns).

Definition boundClosures (ns : list (string * NamespaceValue))
  : list (string * ProxyMethod) :=
  omap (fun item => match loadFrom item.2 with
                    | Some qm => Some (item.1, proxyMethod qm)
                    | None => None
                    end) ns.

(** ** Worked declarations

    The query of the specification's scenario, with one named placeholder
    and one parameter after the receiver, and a few relatives of it. *)

Fixpoint literal (s : string) : list Piece :=
  match s with
  | EmptyString => []
  | String c s' => Lit c :: literal s'
  end.

Definition usersSQL : string := "SELECT name FROM users WHERE id = {userId}".

Definition usersTemplate : list Piece :=
  literal "SELECT name FROM users WHERE id = " ++ [Placeholder "userId"].

Definition lookupUser : ProtocolMethod :=
  mkMethod "lookupUser" [mkParam "self" None; mkParam "userId" None].

(** The users query set on a method whose parameter is spelled otherwise. *)
Definition lookupUserSnake : ProtocolMethod :=
  mkMethod "lookupUser" [mkParam "self" None; mkParam "user_id" None].

(** A connection of the given dialect in front of a database [respond]. *)
Definition proxyOn (style : string)
    (respond : string → list object → list (list object)) : AccessProxy :=
  mkProxy (mkConnection style respond).

(** What [setOn] stores for the users query. *)
Definition usersMetadata (load : AccessProxy → Loaded) : QueryMetadata :=
  mkQueryMetadata usersSQL load
    (mkProxyMethod (signature lookupUser)
       (<["pyformat" := ("SELECT name FROM users WHERE id = %s",
                         mkMap "%s" ["userId"])]>
          (<["qmark" := ("SELECT name FROM users WHERE id = ?",
                         mkMap "?" ["userId"])]> ∅))
       load).

(** A declaration that uses one parameter twice. *)
Definition eitherSQL : string :=
  "SELECT id FROM pairs WHERE left = {x} OR right = {x}".

Definition findEither : ProtocolMethod :=
  mkMethod "findEither" [mkParam "self" None; mkParam "x" None].

(** A declaration with a defaulted parameter that the query uses twice. *)
Definition adultsSQL : string :=
  "SELECT name FROM users WHERE age >= {minimum} AND rank >= {minimum} LIMIT {limit}".

Definition listAdults : ProtocolMethod :=
  mkMethod "listAdults"
    [mkParam "self" None; mkParam "limit" None; mkParam "minimum" (Some (PyInt 18))].

Definition adultsMetadata (load : AccessProxy → Loaded) : QueryMetadata :=
  mkQueryMetadata adultsSQL load
    (mkProxyMethod (signature listAdults)
       (<["pyformat" :=
            ("SELECT name FROM users WHERE age >= %s AND rank >= %s LIMIT %s",
             mkMap "%s" ["minimum"; "minimum"; "limit"])]>
          (<["qmark" :=
               ("SELECT name FROM users WHERE age >= ? AND rank >= ? LIMIT ?",
                mkMap "?" ["minimum"; "minimum"; "limit"])]> ∅))
       load).

(** A row-loader of one column: [def userName(db, name): return name]. *)
Definition userName : Loader :=
  mkLoader "app.models" "userName" (Some "app/models.py") 12
    (fun db row =>
       match row with
       | [name] => Returns name
       | _ => Raises (TypeError "userName() takes 2 positional arguments")
       end).

(** The frame of the class body in which the loader is wrapped. *)
Definition classBody : FrameType :=
  mkFrame (mkCode "Users" "app/access.py" 30) 34.



(** The template of the adults query. *)
Definition adultsTemplate : list Piece :=
  literal "SELECT name FROM users WHERE age >= " ++ [Placeholder "minimum"] ++
  literal " AND rank >= " ++ [Placeholder "minimum"] ++
  literal " LIMIT " ++ [Placeholder "limit"].

(** The namespace of a class with a docstring and one query method. *)
Definition Users : ProtocolClass :=
  mkProtocol "Users"
    [ ("__module__", PlainObject);
      ("__doc__", PlainObject);
      ("lookupUser", QueryMethod (usersMetadata (one classBody userName)));
      ("__dict__", PlainObject);
      ("__weakref__", PlainObject) ].

(** ** Further notions *)

(** Text without braces: SQL that names no placeholder. *)
Fixpoint braceFree (s : string) : bool :=
  match s with
  | EmptyString => true
  | String c s' =>
      bool_decide (c ≠ "{"%char) && bool_decide (c ≠ "}"%char) && braceFree s'
  end.

(** The value a call gives the parameter at position [j] of the signature:
    the positional argument at that position, else the keyword argument of
    that name, else the default. *)
Definition resolved (args : list object) (kw : gmap string object)
    (j : nat) (p : Param) : option object :=
  match args !! j with
  | Some v => Some v
  | None =>
      match kw !! param_name p with
      | Some v => Some v
      | None => param_default p
      end
  end.


(** ** Schema builder ([dbxs/schema.py])

    A [SchemaBuilder] holds the schema text written so far and a stack of
    working tables.  The stack is the chain of [_WorkingTable] objects
    linked by [back], oldest last; every object carries the number it was
    allocated under, which is what [is] compares.  A working table is
    written to only while it is on top of the stack. *)

Module Schema.

Inductive error : Type :=
| RuntimeError (msg : string)
| AssertionError (msg : string).

Inductive attempt (A : Type) : Type :=
| Done (a : A)
| Failed (e : error).
Arguments Done {A} a.
Arguments Failed {A} e.

Record _WorkingTable : Type := mkWorkingTable {
  ident : nat;
  columns : list string;
  constraints : list string;
}.

Record SchemaBuilder : Type := mkBuilder {
  schema : string;
  _stack : list _WorkingTable;
  allocated : nat;   (* how many working tables have been created *)
}.

(** [SchemaBuilder()] *)
Definition fresh : SchemaBuilder := mkBuilder EmptyString [] 0.

Definition nl : string := String "010"%char EmptyString.

(** [_tableSchema.format(tableName=..., columns=...)] *)
Definition _tableSchema (tableName columns : string) : string :=
  "CREATE TABLE IF NOT EXISTS " +:+ tableName +:+ " (" +:+ nl +:+
  "    " +:+ columns +:+ nl +:+ ");" +:+ nl.

(** [sep.join(items)] *)
Fixpoint join (sep : string) (items : list string) : string :=
  match items with
  | [] => EmptyString
  | [item] => item
  | item :: rest => item +:+ sep +:+ join sep rest
  end.

Definition push (self : SchemaBuilder) : _WorkingTable * SchemaBuilder :=
  let current := mkWorkingTable (allocated self) [] [] in
  (current, mkBuilder (schema self) (current :: _stack self) (S (allocated self))).

Definition get (self : SchemaBuilder) : attempt _WorkingTable :=
  match _stack self with
  | [] => Failed (RuntimeError "not currently defining a table")
  | current :: _ => Done current
  end.

Definition pop (self : SchemaBuilder) : attempt _WorkingTable * SchemaBuilder :=
  match get self with
  | Failed e => (Failed e, self)
  | Done result =>
      (Done result, mkBuilder (schema self) (tail (_stack self)) (allocated self))
  end.

(** The closure [buildSchema] that [table] returns: the working table it
    pushed and the table's name. *)
Record Decorator : Type := mkDecorator {
  work : _WorkingTable;
  tableName : string;
}.

Definition table (name : string) (self : SchemaBuilder)
  : Decorator * SchemaBuilder :=
  let '(work, self) := push self in (mkDecorator work name, self).

(** [work] and the popped table are one object when the assertion holds;
    its lists are read where they are written, on the stack. *)
Definition buildSchema (d : Decorator) (self : SchemaBuilder)
  : attempt unit * SchemaBuilder :=
  match pop self with
  | (Failed e, self) => (Failed e, self)
  | (Done popped, self) =>
      if decide (ident popped = ident (work d)) then
        let sep := "," +:+ nl +:+ "    " in
        let partialSchema :=
          _tableSchema (tableName d)
            (join sep (columns popped ++ constraints popped)) in
        (Done tt, mkBuilder (schema self +:+ partialSchema) (_stack self)
                            (allocated self))
      else (Failed (AssertionError "stack should match"), self)
  end.

(** [self._stack.get().columns.append(columnText)] *)
Definition column (columnText : string) (self : SchemaBuilder)
  : attempt unit * SchemaBuilder :=
  match _stack self with
  | [] => (Failed (RuntimeError "not currently defining a table"), self)
  | current :: back =>
      (Done tt,
       mkBuilder (schema self)
         (mkWorkingTable (ident current) (columns current ++ [columnText])
                         (constraints current) :: back)
         (allocated self))
  end.

Definition constraint (constraintText : string) (self : SchemaBuilder)
  : attempt unit * SchemaBuilder :=
  match _stack self with
  | [] => (Failed (RuntimeError "not currently defining a table"), self)
  | current :: back =>
      (Done tt,
       mkBuilder (schema self)
         (mkWorkingTable (ident current) (columns current)
                         (constraints current ++ [constraintText]) :: back)
         (allocated self))
  end.

(** What a class body does with a builder: it declares columns and
    constraints and, nested in it, further decorated classes.  The
    decorator expression [builder.table(name)] is evaluated before the body
    of the class runs and is applied after it; a body that raises leaves
    the decorator unapplied. *)
#[warnings="-register-all"]
Inductive Statement : Type :=
| Column (columnText : string)
| Constraint (constraintText : string)
| Class (name : string) (body : list Statement).

Fixpoint exec (s : Statement) (self : SchemaBuilder)
  : attempt unit * SchemaBuilder :=
  match s with
  | Column columnText => column columnText self
  | Constraint constraintText => constraint constraintText self
  | Class name body =>
      let '(decorator, self) := table name self in
      let run :=
        fix run (body : list Statement) (self : SchemaBuilder) :=
          match body with
          | [] => (Done tt, self)
          | s :: rest =>
              match exec s self with
              | (Done _, self) => run rest self
              | (Failed e, self) => (Failed e, self)
              end
          end in
      match run body self with
      | (Done _, self) => buildSchema decorator self
      | (Failed e, self) => (Failed e, self)
      end
  end.

Fixpoint execAll (body : list Statement) (self : SchemaBuilder)
  : attempt unit * SchemaBuilder :=
  match body with
  | [] => (Done tt, self)
  | s :: rest =>
      match exec s self with
      | (Done _, self) => execAll rest self
      | (Failed e, self) => (Failed e, self)
      end
  end.

(** The columns and the constraints a class body declares for its own
    table, and the number of classes in it, nested ones included. *)
Definition ownColumns (body : list Statement) : list string :=
  omap (fun s => match s with Column text => Some text | _ => None end) body.

Definition ownConstraints (body : list Statement) : list string :=
  omap (fun s => match s with Constraint text => Some text | _ => None end) body.

Fixpoint classes (s : Statement) : nat :=
  match s with
  | Class _ body => S (foldr (fun s n => classes s + n) 0 body)
  | _ => 0
  end.

(** The text a statement adds to the schema: nothing for a column or a
    constraint; for a class the texts of the classes nested in it, in
    order, and then its own table. *)
Fixpoint emitted (s : Statement) : string :=
  match s with
  | Class name body =>
      foldr (fun s text => emitted s +:+ text) EmptyString body +:+
      _tableSchema name
        (join ("," +:+ nl +:+ "    ") (ownColumns body ++ ownConstraints body))
  | _ => EmptyString
  end.

Definition emittedAll (body : list Statement) : string :=
  foldr (fun s text => emitted s +:+ text) EmptyString body.

Definition classesAll (body : list Statement) : nat :=
  foldr (fun s n => classes s + n) 0 body.

Definition isClass (s : Statement) : bool :=
  match s with Class _ _ => true | _ => false end.

(** Every working table on the stack was allocated by this builder. *)
Definition allocatedHere (self : SchemaBuilder) : Prop :=
  Forall (fun w => ident w < allocated self) (_stack self).

(** The two classes of the repository's tests. *)
Definition Hello : Statement :=
  Class "hello"
    [ Column "foo INTEGER NOT NULL";
      Constraint "UNIQUE (foo)";
      Column "bar TEXT NOT NULL" ].

Definition HelloGoodbye : Statement :=
  Class "hello"
    [ Column "foo INTEGER NOT NULL";
      Class "goodbye" [ Column "farewell TEXT NOT NULL" ];
      Column "bar TEXT NOT NULL" ].

End Schema.

(** * Properties *)

(** ** Strings *)

Lemma append_cons (c : ascii) (s t : string) :
  String c s +:+ t = String c (s +:+ t).
Proof. reflexivity. Qed.

Lemma append_nil_l (s : string) : EmptyString +:+ s = s.
Proof. reflexivity. Qed.

Lemma append_nil_r (s : string) : s +:+ EmptyString = s.
Proof.
  induction s as [|c s IH]; [done|]. by rewrite append_cons, IH.
Qed.

Lemma append_assoc (a b c : string) : (a +:+ b) +:+ c = a +:+ (b +:+ c).
Proof.
  induction a as [|x a IH]; [done|]. by rewrite !append_cons, IH.
Qed.

Lemma snoc_append (out : string) (c : ascii) (s : string) :
  snoc out c +:+ s = out +:+ String c s.
Proof. unfold snoc. by rewrite append_assoc. Qed.

(** ** The placeholder renderer *)

Lemma vformat_cons c s st out m :
  vformat (String c s) st out m
  = match scanChar st c out m with
    | Returns (st', out', m') => vformat s st' out' m'
    | Raises e => Raises e
    end.
Proof. reflexivity. Qed.

(** One character of the scanner. *)
Ltac scan_step := rewrite vformat_cons; simpl scanChar.

(** A positive amount of fuel, given that it exceeds something. *)
Ltac some_fuel fuel H := destruct fuel as [|fuel]; [simpl in H; lia|].

Lemma fieldChar_nameChar acc c out m :
  nameChar c = true → fieldChar acc c out m = Returns (Field (snoc acc c), out, m).
Proof.
  unfold nameChar. intros H%bool_decide_eq_true.
  rewrite !not_elem_of_cons in H. destruct H as (?&?&?&?&?&?&_).
  unfold fieldChar. by rewrite !decide_False.
Qed.

Lemma vformat_name (n : string) : ∀ acc s out m,
  nameChars n = true →
  vformat (n +:+ s) (Field acc) out m = vformat s (Field (acc +:+ n)) out m.
Proof.
  induction n as [|c n IH]; intros acc s out m Hn.
  - by rewrite append_nil_l, append_nil_r.
  - simpl in Hn. apply andb_prop in Hn as [Hc Hn].
    rewrite append_cons. scan_step.
    rewrite fieldChar_nameChar by done.
    rewrite IH by done. by rewrite snoc_append.
Qed.

Lemma vformat_placeholder (n s out : string) m :
  nameChars n = true → allDigits n = false → tooManyDigits 0 n = false →
  vformat ("{" +:+ n +:+ "}" +:+ s) Text out m
  = vformat s Text (out +:+ placeholder m)
      (mkMap (placeholder m) (names m ++ [n])).
Proof.
  intros Hn Hd Hmany. destruct n as [|c n]; [done|].
  simpl in Hn. apply andb_prop in Hn as [Hc Hn].
  assert (c ≠ "{"%char) as Hne.
  { unfold nameChar in Hc. apply bool_decide_eq_true in Hc.
    rewrite !not_elem_of_cons in Hc. tauto. }
  rewrite !append_cons, append_nil_l, vformat_cons.
  change (scanChar Text "{" out m) with (Returns (A:=scan * string * _) (Opened, out, m)).
  cbv iota beta. rewrite vformat_cons.
  simpl scanChar. rewrite decide_False by done.
  rewrite fieldChar_nameChar by done.
  rewrite vformat_name by done.
  rewrite snoc_append, !append_nil_l, vformat_cons.
  simpl scanChar. unfold fieldChar. rewrite decide_True by done.
  unfold positionalField. by rewrite Hmany, Hd.
Qed.

Lemma vformat_piece (p : Piece) (s out : string) m :
  keywordPiece p = true →
  vformat (pieceText p +:+ s) Text out m
  = vformat s Text (out +:+ rendered (placeholder m) [p])
      (mkMap (placeholder m) (names m ++ placeholderOrder [p])).
Proof.
  intros Hp. destruct p as [c|n].
  - simpl. rewrite app_nil_r. destruct m as [tok ns]; simpl.
    repeat case_decide; subst;
      rewrite ?append_cons, ?append_nil_l, !vformat_cons; simpl scanChar;
      rewrite ?decide_True, ?decide_False by done; try done.
  - simpl in Hp. apply andb_prop in Hp as [Hp Hmany%negb_true_iff].
    apply andb_prop in Hp as [Hn Hd%negb_true_iff].
    change (pieceText (Placeholder n)) with ("{" +:+ n +:+ "}").
    change (rendered (placeholder m) [Placeholder n])
      with (placeholder m +:+ EmptyString).
    change (placeholderOrder [Placeholder n]) with [n].
    rewrite append_nil_r, !append_assoc.
    by apply vformat_placeholder.
Qed.

Lemma rendered_cons token p t :
  rendered token (p :: t) = rendered token [p] +:+ rendered token t.
Proof.
  destruct p; simpl; [done|]. by rewrite append_nil_r.
Qed.

Lemma vformat_template (t : list Piece) : ∀ s out m,
  namedPlaceholders t →
  vformat (templateText t +:+ s) Text out m
  = vformat s Text (out +:+ rendered (placeholder m) t)
      (mkMap (placeholder m) (names m ++ placeholderOrder t)).
Proof.
  unfold namedPlaceholders.
  induction t as [|p t IH]; intros s out m Ht.
  - simpl. rewrite append_nil_l, append_nil_r, app_nil_r. by destruct m.
  - simpl in Ht. apply andb_prop in Ht as [Hp Ht].
    change (templateText (p :: t)) with (pieceText p +:+ templateText t).
    rewrite append_assoc, vformat_piece by done.
    rewrite IH by done. simpl placeholder. simpl names.
    f_equal.
    + by rewrite append_assoc, <- rendered_cons.
    + rewrite <- app_assoc. by destruct p.
Qed.

Lemma format_map_template (t : list Piece) (token : string) :
  namedPlaceholders t →
  format_map (templateText t) (mkMap token [])
  = Returns (rendered token t, mkMap token (placeholderOrder t)).
Proof.
  intros Ht. unfold format_map.
  rewrite <- (append_nil_r (templateText t)).
  by rewrite vformat_template.
Qed.

(** Conversely, every string that [format_map] renders is the text of such a
    template. *)
Lemma fieldChar_Returns acc c out m st out' m' :
  fieldChar acc c out m = Returns (st, out', m') →
  (c = "}"%char ∧ allDigits acc = false ∧ tooManyDigits 0 acc = false ∧
   st = Text ∧ out' = out +:+ placeholder m ∧
   m' = mkMap (placeholder m) (names m ++ [acc])) ∨
  (nameChar c = true ∧ st = Field (snoc acc c) ∧ out' = out ∧ m' = m).
Proof.
  unfold fieldChar, getitem, positionalField.
  repeat case_decide; try done.
  - destruct (tooManyDigits 0 acc); [done|].
    destruct (allDigits acc); [done|]. intros [= <- <- <-]. by left.
  - intros [= <- <- <-]. right. split_and!; try done.
    unfold nameChar. apply bool_decide_eq_true.
    rewrite !not_elem_of_cons. split_and!; try done. apply not_elem_of_nil.
Qed.

Lemma vformat_Field_inv (s : string) : ∀ acc out m r,
  vformat s (Field acc) out m = Returns r →
  ∃ n s', s = n +:+ String "}" s' ∧ nameChars n = true ∧
          allDigits (acc +:+ n) = false ∧
          tooManyDigits 0 (acc +:+ n) = false ∧
          vformat s' Text (out +:+ placeholder m)
            (mkMap (placeholder m) (names m ++ [acc +:+ n])) = Returns r.
Proof.
  induction s as [|c s IH]; intros acc out m r H; [done|].
  rewrite vformat_cons in H. simpl scanChar in H.
  destruct (fieldChar acc c out m) as [[[st out'] m']|e] eqn:Hc; [|done].
  apply fieldChar_Returns in Hc
    as [(-> & Hd & Hmany & -> & -> & ->)|(Hn & -> & -> & ->)].
  - exists EmptyString, s. rewrite append_nil_r. by split_and!.
  - apply IH in H as (n & s' & -> & Hn' & Hd & Hmany & H).
    exists (String c n), s'. rewrite snoc_append in Hd, Hmany, H.
    split_and!; try done. simpl. by rewrite Hn, Hn'.
Qed.

Lemma templateText_cons p t : templateText (p :: t) = pieceText p +:+ templateText t.
Proof. reflexivity. Qed.

Lemma length_append (a b : string) :
  String.length (a +:+ b) = String.length a + String.length b.
Proof.
  induction a as [|c a IH]; [done|]. rewrite append_cons. simpl. by rewrite IH.
Qed.

Lemma vformat_Text_inv (fuel : nat) : ∀ s out m r,
  String.length s ≤ fuel →
  vformat s Text out m = Returns r →
  ∃ t, templateText t = s ∧ namedPlaceholders t.
Proof.
  unfold namedPlaceholders.
  induction fuel as [|fuel IH]; intros s out m r Hlen H.
  - destruct s; [by exists []|simpl in Hlen; lia].
  - destruct s as [|c s]; [by exists []|]. simpl in Hlen.
    rewrite vformat_cons in H. simpl scanChar in H.
    destruct (decide (c = "{"%char)) as [->|Hopen].
    + destruct s as [|c2 s]; [done|]. simpl in Hlen.
      rewrite vformat_cons in H. simpl scanChar in H.
      destruct (decide (c2 = "{"%char)) as [->|Hc2].
      * apply IH in H as (t & <- & Ht); [|lia].
        exists (Lit "{" :: t). by split.
      * change (match fieldChar EmptyString c2 out m with
                | Returns (st', out', m') => vformat s st' out' m'
                | Raises e => Raises e
                end)
          with (vformat (String c2 s) (Field EmptyString) out m) in H.
        apply vformat_Field_inv in H as (n & s' & Heq & Hn & Hd & Hmany & H).
        rewrite append_nil_l in Hd, Hmany.
        apply IH in H as (t & <- & Ht).
        -- exists (Placeholder n :: t). split.
           ++ rewrite templateText_cons, Heq.
              cbn [pieceText]. by rewrite !append_cons, append_nil_l, append_assoc.
           ++ simpl. by rewrite Hn, Hd, Hmany, Ht.
        -- apply (f_equal String.length) in Heq.
           rewrite length_append in Heq. simpl in Heq. lia.
    + destruct (decide (c = "}"%char)) as [->|Hshut].
      * destruct s as [|c2 s]; [done|]. simpl in Hlen.
        rewrite vformat_cons in H. simpl scanChar in H.
        destruct (decide (c2 = "}"%char)) as [->|Hc2]; [|done].
        apply IH in H as (t & <- & Ht); [|lia].
        exists (Lit "}" :: t). by split.
      * apply IH in H as (t & <- & Ht); [|lia].
        exists (Lit c :: t). split; [|done].
        rewrite templateText_cons. cbn [pieceText].
        by rewrite !decide_False by done.
Qed.

Lemma format_map_is_template (sql styled : string) m m' :
  format_map sql m = Returns (styled, m') →
  ∃ t, templateText t = sql ∧ namedPlaceholders t.
Proof. intros H. by eapply (vformat_Text_inv (String.length sql)). Qed.

Lemma fieldChar_sameOrder acc c out1 out2 m1 m2 :
  names m1 = names m2 →
  match fieldChar acc c out1 m1, fieldChar acc c out2 m2 with
  | Returns (st1, _, m1'), Returns (st2, _, m2') =>
      st1 = st2 ∧ names m1' = names m2'
  | Raises e1, Raises e2 => e1 = e2
  | _, _ => False
  end.
Proof.
  intros Hm. unfold fieldChar, getitem.
  repeat case_decide; try done.
  destruct (tooManyDigits 0 acc); [done|].
  destruct (positionalField acc); simpl; [done|]. by rewrite Hm.
Qed.

Lemma scanChar_sameOrder st c out1 out2 m1 m2 :
  names m1 = names m2 →
  match scanChar st c out1 m1, scanChar st c out2 m2 with
  | Returns (st1, _, m1'), Returns (st2, _, m2') =>
      st1 = st2 ∧ names m1' = names m2'
  | Raises e1, Raises e2 => e1 = e2
  | _, _ => False
  end.
Proof.
  intros Hm. destruct st; simpl;
    repeat case_decide; try done; by apply fieldChar_sameOrder.
Qed.

Lemma vformat_sameOrder (s : string) : ∀ st out1 out2 m1 m2,
  names m1 = names m2 →
  sameOrder (vformat s st out1 m1) (vformat s st out2 m2).
Proof.
  induction s as [|c s IH]; intros st out1 out2 m1 m2 Hm.
  - by destruct st.
  - rewrite !vformat_cons.
    pose proof (scanChar_sameOrder st c out1 out2 m1 m2 Hm) as H.
    destruct (scanChar st c out1 m1) as [[[st1 o1] m1']|e1],
             (scanChar st c out2 m2) as [[[st2 o2] m2']|e2]; try done.
    destruct H as [-> H]. by apply IH.
Qed.

Lemma format_map_sameOrder (sql token1 token2 : string) :
  sameOrder (format_map sql (mkMap token1 [])) (format_map sql (mkMap token2 [])).
Proof. by apply vformat_sameOrder. Qed.

(** A rendering keeps the token of the map it was given. *)
Lemma vformat_placeholder_kept (s : string) : ∀ st out m styled m',
  vformat s st out m = Returns (styled, m') → placeholder m' = placeholder m.
Proof.
  induction s as [|c s IH]; intros st out m styled m' H.
  - destruct st; simpl in H; by simplify_eq.
  - rewrite vformat_cons in H.
    destruct (scanChar st c out m) as [[[st1 o1] m1]|e1] eqn:Hc; [|done].
    apply IH in H. rewrite H. clear H.
    assert (∀ acc, fieldChar acc c out m = Returns (st1, o1, m1) →
                   placeholder m1 = placeholder m) as Hf.
    { intros acc. unfold fieldChar, getitem.
      repeat case_decide; try done; [|by intros [= <- <- <-]].
      destruct (tooManyDigits 0 acc); [done|].
      destruct (positionalField acc); [done|]. by intros [= <- <- <-]. }
    destruct st; simpl in Hc; eauto;
      repeat case_decide; simplify_eq; eauto.
Qed.

(** ** Dictionaries and binding *)

Lemma foldl_insert_notin {V} (pairs : list (string * V)) :
  ∀ (d : gmap string V) k,
  k ∉ pairs.*1 →
  foldl (fun d kv => <[kv.1 := kv.2]> d) d pairs !! k = d !! k.
Proof.
  induction pairs as [|[k' v'] pairs IH]; intros d k Hk; [done|].
  simpl in *. apply not_elem_of_cons in Hk as [Hne Hk].
  rewrite IH by done. by rewrite lookup_insert_ne.
Qed.

Lemma foldl_insert_nodup {V} (pairs : list (string * V)) :
  ∀ (d : gmap string V) k v,
  NoDup pairs.*1 → (k, v) ∈ pairs →
  foldl (fun d kv => <[kv.1 := kv.2]> d) d pairs !! k = Some v.
Proof.
  induction pairs as [|[k' v'] pairs IH]; intros d k v Hnd Hin.
  - by apply elem_of_nil in Hin.
  - simpl in *. apply NoDup_cons in Hnd as [Hk' Hnd].
    apply elem_of_cons in Hin as [[= -> ->]|Hin].
    + rewrite foldl_insert_notin by done. by rewrite lookup_insert_eq.
    + by apply IH.
Qed.

Lemma foldl_insert_is_Some {V} (pairs : list (string * V)) :
  ∀ (d : gmap string V) k,
  k ∈ pairs.*1 ∨ is_Some (d !! k) →
  is_Some (foldl (fun d kv => <[kv.1 := kv.2]> d) d pairs !! k).
Proof.
  induction pairs as [|[k' v'] pairs IH]; intros d k H.
  - destruct H as [H|H]; [by apply elem_of_nil in H | done].
  - simpl in *. apply IH. destruct H as [H|H].
    + apply elem_of_cons in H as [->|H]; [right | by left].
      by rewrite lookup_insert_eq.
    + right. destruct (decide (k' = k)) as [->|Hne].
      * by rewrite lookup_insert_eq.
      * by rewrite lookup_insert_ne.
Qed.

Lemma dict_nodup {V} (pairs : list (string * V)) k v :
  NoDup pairs.*1 → (k, v) ∈ pairs → dict pairs !! k = Some v.
Proof. apply foldl_insert_nodup. Qed.

Lemma dict_is_Some {V} (pairs : list (string * V)) k :
  k ∈ pairs.*1 → is_Some (dict pairs !! k).
Proof. intros. apply foldl_insert_is_Some. by left. Qed.

Lemma apply_defaults_eq sig arguments :
  apply_defaults sig arguments = dict (omap (defaulted arguments) sig).
Proof. reflexivity. Qed.

Lemma defaulted_keys arguments (sig : Signature) :
  (omap (defaulted arguments) sig).*1 `sublist_of` parameters sig.
Proof.
  induction sig as [|p sig IH]; [done|]. simpl.
  unfold defaulted at 1.
  destruct (arguments !! param_name p); simpl.
  - by apply sublist_skip.
  - destruct (param_default p); simpl.
    + by apply sublist_skip.
    + by apply sublist_cons.
Qed.

Lemma apply_defaults_is_Some (sig : Signature) arguments p :
  p ∈ sig →
  is_Some (arguments !! param_name p) ∨ is_Some (param_default p) →
  is_Some (apply_defaults sig arguments !! param_name p).
Proof.
  intros Hp H. rewrite apply_defaults_eq. apply dict_is_Some.
  assert (∃ v, defaulted arguments p = Some (param_name p, v)) as [v Hv].
  { unfold defaulted. destruct (arguments !! param_name p) as [v|]; [by eauto|].
    destruct H as [[? [=]]|[d ->]]. by eauto. }
  apply list_elem_of_fmap. exists (param_name p, v). split; [done|].
  apply list_elem_of_omap. eauto.
Qed.

Lemma apply_defaults_default (sig : Signature) arguments p d :
  NoDup (parameters sig) → p ∈ sig →
  arguments !! param_name p = None → param_default p = Some d →
  apply_defaults sig arguments !! param_name p = Some d.
Proof.
  intros Hnd Hp Ha Hd. rewrite apply_defaults_eq. apply dict_nodup.
  - eapply sublist_NoDup; [done | apply defaulted_keys].
  - apply list_elem_of_omap. exists p. split; [done|].
    unfold defaulted. by rewrite Ha, Hd.
Qed.

Lemma apply_defaults_given (sig : Signature) arguments p v :
  NoDup (parameters sig) → p ∈ sig →
  arguments !! param_name p = Some v →
  apply_defaults sig arguments !! param_name p = Some v.
Proof.
  intros Hnd Hp Ha. rewrite apply_defaults_eq. apply dict_nodup.
  - eapply sublist_NoDup; [done | apply defaulted_keys].
  - apply list_elem_of_omap. exists p. split; [done|].
    unfold defaulted. by rewrite Ha.
Qed.

Lemma bindPositional_inv (args : list object) :
  ∀ params kwargs (a : gmap string object) rest a',
  bindPositional params args kwargs a = Returns (rest, a') →
  ∃ consumed : list Param,
    params = consumed ++ rest ∧ length consumed = length args ∧
    (∀ p, p ∈ consumed →
          is_Some (a' !! param_name p) ∧ kwargs !! param_name p = None) ∧
    (∀ k, k ∉ param_name <$> consumed → a' !! k = a !! k) ∧
    (∀ k, is_Some (a !! k) → is_Some (a' !! k)).
Proof.
  induction args as [|arg args IH]; intros params kwargs a rest a' H.
  - simpl in H. injection H as <- <-. exists []. split_and!; try done.
    intros p Hp. by apply elem_of_nil in Hp.
  - destruct params as [|p ps]; [done|]. simpl in H.
    destruct (kwargs !! param_name p) eqn:Hkw; [done|].
    apply IH in H as (consumed & -> & Hlen & Hin & Hout & Hmono).
    exists (p :: consumed). split_and!.
    + done.
    + simpl. by rewrite Hlen.
    + intros q [->|Hq]%elem_of_cons; [|by apply Hin].
      split; [|done]. apply Hmono. by rewrite lookup_insert_eq.
    + intros k Hk. rewrite fmap_cons in Hk.
      apply not_elem_of_cons in Hk as [Hne Hk].
      rewrite Hout by done. by rewrite lookup_insert_ne.
    + intros k Hk. apply Hmono.
      destruct (decide (param_name p = k)) as [->|Hne].
      * by rewrite lookup_insert_eq.
      * by rewrite lookup_insert_ne.
Qed.

Lemma bindKeywords_inv (params : list Param) :
  ∀ (kwargs a kwargs' a' : gmap string object),
  bindKeywords params kwargs a = Returns (kwargs', a') →
  (∀ p, p ∈ params → is_Some (a' !! param_name p) ∨ is_Some (param_default p)) ∧
  (∀ k, is_Some (a !! k) → is_Some (a' !! k)) ∧
  (∀ k, kwargs !! k = None → a' !! k = a !! k).
Proof.
  induction params as [|p ps IH]; intros kwargs a kwargs' a' H.
  - simpl in H. injection H as <- <-. split_and!; try done.
    intros p Hp. by apply elem_of_nil in Hp.
  - simpl in H. destruct (kwargs !! param_name p) as [v|] eqn:Hkw.
    + apply IH in H as (Hin & Hmono & Hout). split_and!.
      * intros q [->|Hq]%elem_of_cons; [|by apply Hin].
        left. apply Hmono. by rewrite lookup_insert_eq.
      * intros k Hk. apply Hmono.
        destruct (decide (param_name p = k)) as [->|Hne].
        -- by rewrite lookup_insert_eq.
        -- by rewrite lookup_insert_ne.
      * intros k Hk. assert (param_name p ≠ k) by congruence.
        rewrite Hout by (by rewrite lookup_delete_ne).
        by rewrite lookup_insert_ne.
    + destruct (param_default p) as [d|] eqn:Hd; [|done].
      apply IH in H as (Hin & Hmono & Hout). split_and!; try done.
      intros q [->|Hq]%elem_of_cons; [|by apply Hin].
      right. by rewrite Hd.
Qed.

(** A positional argument is bound to the parameter at its position. *)
Lemma bindPositional_lookup (args : list object) :
  ∀ params kwargs (a : gmap string object) rest a' (j : nat) p v,
  bindPositional params args kwargs a = Returns (rest, a') →
  NoDup (param_name <$> params) →
  params !! j = Some p → args !! j = Some v →
  a' !! param_name p = Some v.
Proof.
  induction args as [|arg args IH];
    intros params kwargs a rest a' j p v H Hnd Hp Hv; [done|].
  destruct params as [|q ps]; [done|]. simpl in H.
  destruct (kwargs !! param_name q) eqn:Hkw; [done|].
  rewrite fmap_cons in Hnd. apply NoDup_cons in Hnd as [Hq Hnd].
  destruct j as [|j]; simpl in *.
  - injection Hp as ->. injection Hv as ->.
    apply bindPositional_inv in H as (consumed & -> & _ & _ & Hout & _).
    rewrite Hout; [by rewrite lookup_insert_eq|].
    intros Hin. apply Hq. rewrite fmap_app. apply elem_of_app. by left.
  - by eapply IH.
Qed.

Lemma bind_inv sig args kwargs bound :
  bind sig args kwargs = Returns bound →
  ∃ rest arguments kwargs',
    bindPositional sig args kwargs ∅ = Returns (rest, arguments) ∧
    bindKeywords rest kwargs arguments = Returns (kwargs', bound).
Proof.
  unfold bind. intros H.
  destruct (bindPositional sig args kwargs ∅) as [[rest arguments]|] eqn:H1;
    [|done].
  simpl in H.
  destruct (bindKeywords rest kwargs arguments) as [[kwargs' a']|] eqn:H2;
    [|done].
  simpl in H. case_decide; [|done]. injection H as ->.
  by exists rest, arguments, kwargs'.
Qed.

(** After a successful [bind], every parameter has a value or a default. *)
Lemma bind_covers sig args kwargs bound p :
  bind sig args kwargs = Returns bound → p ∈ sig →
  is_Some (bound !! param_name p) ∨ is_Some (param_default p).
Proof.
  intros (rest & a & kw' & H1 & H2)%bind_inv Hp.
  apply bindPositional_inv in H1 as (consumed & -> & Hlen & Hin & _).
  apply bindKeywords_inv in H2 as (Hkin & Hmono & _).
  apply elem_of_app in Hp as [Hp|Hp]; [|by apply Hkin].
  left. by apply Hmono, Hin.
Qed.

(** A positional argument is what [bound.arguments] holds for the parameter
    at its position, also after [apply_defaults]. *)
Lemma bind_positional sig args kwargs bound (j : nat) p v :
  NoDup (parameters sig) → sig !! j = Some p → args !! j = Some v →
  bind sig args kwargs = Returns bound →
  apply_defaults sig bound !! param_name p = Some v.
Proof.
  intros Hnd Hj Hv (rest & a & kw' & H1 & H2)%bind_inv.
  apply apply_defaults_given; [done|by eapply list_elem_of_lookup_2|].
  pose proof (bindPositional_lookup _ _ _ _ _ _ _ _ _ H1 Hnd Hj Hv) as Ha.
  apply bindPositional_inv in H1 as (consumed & -> & Hlen & Hin & _).
  apply bindKeywords_inv in H2 as (_ & _ & Hkout).
  rewrite Hkout; [done|]. apply Hin.
  apply lookup_lt_Some in Hv. rewrite <- Hlen in Hv.
  rewrite lookup_app_l in Hj by done. by eapply list_elem_of_lookup_2.
Qed.

(** A parameter that no positional argument reaches and no keyword names is
    left out of [bound.arguments]. *)
Lemma bind_omitted sig args kwargs bound (j : nat) p :
  NoDup (parameters sig) → sig !! j = Some p → length args ≤ j →
  kwargs !! param_name p = None →
  bind sig args kwargs = Returns bound →
  bound !! param_name p = None.
Proof.
  intros Hnd Hj Hlen Hkw (rest & a & kw' & H1 & H2)%bind_inv.
  apply bindPositional_inv in H1 as (consumed & -> & Hc & _ & Hout & _).
  apply bindKeywords_inv in H2 as (_ & _ & Hkout).
  rewrite Hkout by done. rewrite Hout; [done|].
  unfold parameters in Hnd. rewrite fmap_app in Hnd.
  apply NoDup_app in Hnd as (_ & Hdisj & _).
  intros Hin. apply (Hdisj _ Hin).
  rewrite lookup_app_r in Hj by lia.
  apply list_elem_of_fmap. exists p. split; [done|].
  by eapply list_elem_of_lookup_2.
Qed.

Lemma lookupEach_total bound (each : list string) :
  (∀ name, name ∈ each → is_Some (bound !! name)) →
  ∃ vals, lookupEach bound each = Returns vals.
Proof.
  induction each as [|name each IH]; intros H; [by eexists|].
  simpl. destruct (H name) as [v ->]; [by left|].
  destruct IH as [vals ->]; [|by eexists].
  intros n Hn. apply H. by right.
Qed.

Lemma lookupEach_Forall2 bound (each : list string) : ∀ vals,
  lookupEach bound each = Returns vals →
  Forall2 (fun name val => bound !! name = Some val) each vals.
Proof.
  induction each as [|name each IH]; intros vals H; simpl in H.
  - injection H as <-. constructor.
  - destruct (bound !! name) as [v|] eqn:Hv; [|done].
    destruct (lookupEach bound each) as [vs|]; [|done].
    simpl in H. injection H as <-. constructor; [done | by apply IH].
Qed.

(** ** Setting a declaration on a method *)

Lemma renderStyles_eq (template : string) :
  renderStyles template =
    '(q, mq) ← format_map template (mkMap "?" []);
    '(p, mp) ← format_map template (mkMap "%s" []);
    Returns (<["pyformat" := (p, mp)]> (<["qmark" := (q, mq)]> ∅)).
Proof.
  unfold renderStyles, styles. simpl.
  destruct (format_map template (mkMap "?" [])) as [[q mq]|e]; simpl; [|done].
  by destruct (format_map template (mkMap "%s" [])) as [[p mp]|e].
Qed.

(** When one dialect renders the template, so does the other, and with the
    same order of names. *)
Lemma format_map_both (template q : string) mq :
  format_map template (mkMap "?" []) = Returns (q, mq) →
  placeholder mq = "?" ∧
  ∃ p mp, format_map template (mkMap "%s" []) = Returns (p, mp) ∧
          placeholder mp = "%s" ∧ names mp = names mq.
Proof.
  intros Hq. split; [by apply vformat_placeholder_kept in Hq|].
  pose proof (format_map_sameOrder template "?" "%s") as H.
  rewrite Hq in H.
  destruct (format_map template (mkMap "%s" [])) as [[p mp]|e] eqn:Hp;
    [|done].
  exists p, mp. split_and!; [done| |done].
  by apply vformat_placeholder_kept in Hp.
Qed.

Lemma setOn_eq self_sql self_load protocolMethod q mq p mp :
  format_map self_sql (mkMap "?" []) = Returns (q, mq) →
  format_map self_sql (mkMap "%s" []) = Returns (p, mp) →
  setOn self_sql self_load protocolMethod =
    let selfExcluded := drop 1 (parameters (signature protocolMethod)) in
    if decide (list_to_set (names mq) ≠@{gset string} list_to_set selfExcluded)
    then Raises (ParamMismatch (def_name protocolMethod) (names mq) selfExcluded)
    else Returns (mkQueryMetadata self_sql self_load
                    (mkProxyMethod (signature protocolMethod)
                       (<["pyformat" := (p, mp)]> (<["qmark" := (q, mq)]> ∅))
                       self_load)).
Proof.
  intros Hq Hp. unfold setOn. rewrite renderStyles_eq, Hq, Hp. simpl.
  rewrite lookup_insert_ne by done. by rewrite lookup_insert_eq.
Qed.

Lemma setOn_inv self_sql self_load protocolMethod qm :
  setOn self_sql self_load protocolMethod = Returns qm →
  ∃ q mq p mp,
    format_map self_sql (mkMap "?" []) = Returns (q, mq) ∧
    format_map self_sql (mkMap "%s" []) = Returns (p, mp) ∧
    placeholder mq = "?" ∧ placeholder mp = "%s" ∧ names mp = names mq ∧
    list_to_set (names mq)
      =@{gset string} list_to_set (drop 1 (parameters (signature protocolMethod))) ∧
    qm = mkQueryMetadata self_sql self_load
           (mkProxyMethod (signature protocolMethod)
              (<["pyformat" := (p, mp)]> (<["qmark" := (q, mq)]> ∅))
              self_load).
Proof.
  intros H.
  destruct (format_map self_sql (mkMap "?" [])) as [[q mq]|e] eqn:Hq.
  - destruct (format_map_both _ _ _ Hq) as (Htok & p & mp & Hp & Htok' & Hn).
    rewrite (setOn_eq _ _ _ _ _ _ _ Hq Hp) in H. simpl in H.
    case_decide as Hset; [done|]. injection H as <-.
    exists q, mq, p, mp. split_and!; try done.
  - unfold setOn in H. by rewrite renderStyles_eq, Hq in H.
Qed.

(** The two renderings of a declaration that was set on a method. *)
Lemma precomputedSQL_lookup (q p : string) mq mp (style : string) styled m :
  (<["pyformat" := (p, mp)]> (<["qmark" := (q, mq)]> ∅)
     : gmap string (string * IndexCountingParamstyleMap)) !! style
  = Some (styled, m) →
  (style = "qmark" ∧ styled = q ∧ m = mq) ∨
  (style = "pyformat" ∧ styled = p ∧ m = mp).
Proof.
  intros H. destruct (decide (style = "pyformat")) as [->|Hne].
  - rewrite lookup_insert_eq in H. injection H as <- <-. by right.
  - rewrite lookup_insert_ne in H by done.
    destruct (decide (style = "qmark")) as [->|Hne'].
    + rewrite lookup_insert_eq in H. injection H as <- <-. by left.
    + rewrite lookup_insert_ne in H by done. by rewrite lookup_empty in H.
Qed.

(** ** Rendering *)

(** C7.  A template of literal text and [{name}] placeholders renders, under
    qmark and under pyformat, to its text with every placeholder occurrence
    replaced by the dialect's token ([?], [%s]), and the map records the
    names in the order of their occurrences, a repeated name once per
    occurrence; every string that [format_map] renders is the text of such
    a template.  The users query renders under qmark to
    [SELECT name FROM users WHERE id = ?] with order [userId], and calling it
    with [userId=7], by keyword or by position, executes that statement with
    the positional parameters [7]. *)
Theorem placeholders_rendered_in_order (t : list Piece) :
  namedPlaceholders t →
  format_map (templateText t) (mkMap "?" [])
    = Returns (rendered "?" t, mkMap "?" (placeholderOrder t)) ∧
  format_map (templateText t) (mkMap "%s" [])
    = Returns (rendered "%s" t, mkMap "%s" (placeholderOrder t)) ∧
  (fun item => (item.1, item.2 tt)) <$> styles
    = [("qmark", mkMap "?" []); ("pyformat", mkMap "%s" [])] ∧
  (∀ sql token styled m,
     format_map sql (mkMap token []) = Returns (styled, m) →
     ∃ t', templateText t' = sql ∧ namedPlaceholders t') ∧
  format_map usersSQL (mkMap "?" [])
    = Returns ("SELECT name FROM users WHERE id = ?", mkMap "?" ["userId"]) ∧
  ∀ load respond,
    let executed :=
      mkCursor (respond "SELECT name FROM users WHERE id = ?" [PyInt 7])
               [Execute "SELECT name FROM users WHERE id = ?" [PyInt 7]] in
    ∃ qm, query usersSQL load lookupUser = Returns qm ∧
          body (proxyMethod qm) (proxyOn "qmark" respond) []
               {["userId" := PyInt 7]}
            = handOff (proxyMethod qm) (proxyOn "qmark" respond) executed ∧
          body (proxyMethod qm) (proxyOn "qmark" respond) [PyInt 7] ∅
            = handOff (proxyMethod qm) (proxyOn "qmark" respond) executed.
Proof.
  intros Ht. split_and!.
  - by apply format_map_template.
  - by apply format_map_template.
  - reflexivity.
  - intros sql token styled m. apply format_map_is_template.
  - reflexivity.
  - intros load respond executed. eexists. split_and!.
    + unfold query. vm_compute. reflexivity.
    + vm_compute. reflexivity.
    + vm_compute. reflexivity.
Qed.

Lemma placeholders_rendered_in_order_witness :
  templateText usersTemplate = usersSQL ∧
  format_map usersSQL (mkMap "%s" [])
    = Returns ("SELECT name FROM users WHERE id = %s", mkMap "%s" ["userId"]).
Proof.
  split; [reflexivity|].
  exact (proj1 (proj2 (placeholders_rendered_in_order usersTemplate eq_refl))).
Defined.

(** A name used twice is recorded twice. *)
Example format_map_repeated :
  format_map "{{{a}}} {b} {a} }}" (mkMap "%s" [])
  = Returns ("{%s} %s %s }", mkMap "%s" ["a"; "b"; "a"]).
Proof. reflexivity. Qed.

(** Positional fields and unbalanced braces are refused. *)
Example format_map_positional :
  format_map "x = {}" (mkMap "?" [])
  = Raises (ValueError "Format string contains positional fields").
Proof. reflexivity. Qed.

Example format_map_single_brace :
  format_map "x = }" (mkMap "?" [])
  = Raises (ValueError "Single '}' encountered in format string").
Proof. reflexivity. Qed.

Lemma setOn_users load :
  setOn usersSQL load lookupUser = Returns (usersMetadata load).
Proof. vm_compute. reflexivity. Qed.

(** ** Positional arguments per dialect *)

(** Every recorded name is a parameter, so after a successful [bind] and
    [apply_defaults] every name has a value. *)
Lemma names_bound (sig : Signature) m args kwargs bound :
  list_to_set (names m) =@{gset string} list_to_set (drop 1 (parameters sig)) →
  bind sig args kwargs = Returns bound →
  ∀ name, name ∈ names m → is_Some (apply_defaults sig bound !! name).
Proof.
  intros Hset Hbind name Hname.
  assert (name ∈ parameters sig) as Hp.
  { assert (name ∈@{gset string} list_to_set (names m)) as H
      by by apply elem_of_list_to_set.
    rewrite Hset in H. apply elem_of_list_to_set in H.
    eapply elem_of_sublist; [done | apply sublist_drop]. }
  apply list_elem_of_fmap in Hp as (p & -> & Hp).
  apply apply_defaults_is_Some; [done|]. by eapply bind_covers.
Qed.

Lemma placeholderOrder_occurrences (name : string) (t : list Piece) :
  length (filter (fun n => n = name) (placeholderOrder t)) = occurrences name t.
Proof.
  induction t as [|[c|n] t IH]; [done|done|].
  change (placeholderOrder (Placeholder n :: t)) with (n :: placeholderOrder t).
  rewrite filter_cons. simpl. case_decide; simpl; by rewrite IH.
Qed.

(** C8, as the code has it.  A declaration accepted by [setOn] has a qmark
    and a pyformat rendering that record the same order of names, and the
    set of those names is the set of the method's parameters after the
    receiver.  For every template the SQL is the text of, the recorded order
    is the template's placeholders from left to right, so a name is recorded
    once per occurrence in the template.  For every call that binds, both
    renderings deliver the same list of positional arguments: the bound
    value of each recorded name, in the recorded order. *)
Theorem renderings_deliver_same_arguments sql load meth qm :
  setOn sql load meth = Returns qm →
  ∃ q p mq mp,
    precomputedSQL (proxyMethod qm) !! "qmark" = Some (q, mq) ∧
    precomputedSQL (proxyMethod qm) !! "pyformat" = Some (p, mp) ∧
    placeholder mq = "?" ∧ placeholder mp = "%s" ∧
    names mq = names mp ∧
    list_to_set (names mq)
      =@{gset string} list_to_set (drop 1 (parameters (signature meth))) ∧
    (∀ t, namedPlaceholders t → templateText t = sql →
       q = rendered "?" t ∧ p = rendered "%s" t ∧
       names mq = placeholderOrder t ∧ names mp = placeholderOrder t ∧
       ∀ name,
         length (filter (fun n => n = name) (names mq)) = occurrences name t ∧
         length (filter (fun n => n = name) (names mp)) = occurrences name t) ∧
    ∀ args kw bound,
      bind (signature meth) (PyNone :: args) kw = Returns bound →
      ∃ vals,
        queryArguments mq (apply_defaults (signature meth) bound) = Returns vals ∧
        queryArguments mp (apply_defaults (signature meth) bound) = Returns vals ∧
        Forall2 (fun name val =>
                   apply_defaults (signature meth) bound !! name = Some val)
                (names mq) vals.
Proof.
  intros (q & mq & p & mp & Hq & Hp & Htq & Htp & Hn & Hset & ->)%setOn_inv.
  exists q, p, mq, mp. cbn [proxyMethod precomputedSQL].
  split_and!; try done.
  - intros t Ht <-.
    rewrite (format_map_template t "?" Ht) in Hq.
    rewrite (format_map_template t "%s" Ht) in Hp.
    injection Hq as <- <-. injection Hp as <- <-. cbn [names].
    split_and!; try done.
    intros name. by rewrite placeholderOrder_occurrences.
  - intros args kw bound Hbind.
    destruct (lookupEach_total (apply_defaults (signature meth) bound) (names mq))
      as [vals Hvals].
    { by eapply names_bound. }
    exists vals. unfold queryArguments. rewrite Hn. split_and!; try done.
    by apply lookupEach_Forall2.
Qed.

Lemma renderings_deliver_same_arguments_witness :
  templateText adultsTemplate = adultsSQL ∧
  ∃ mq mp,
    precomputedSQL (proxyMethod (adultsMetadata zero)) !! "qmark"
      = Some ("SELECT name FROM users WHERE age >= ? AND rank >= ? LIMIT ?", mq) ∧
    precomputedSQL (proxyMethod (adultsMetadata zero)) !! "pyformat"
      = Some ("SELECT name FROM users WHERE age >= %s AND rank >= %s LIMIT %s",
              mp) ∧
    names mq = ["minimum"; "minimum"; "limit"] ∧
    names mp = ["minimum"; "minimum"; "limit"] ∧
    length (filter (fun n => n = "minimum") (names mq)) = 2.
Proof.
  split; [reflexivity|].
  assert (setOn adultsSQL zero listAdults = Returns (adultsMetadata zero)) as H
    by (vm_compute; reflexivity).
  destruct (renderings_deliver_same_arguments adultsSQL zero listAdults
              (adultsMetadata zero) H)
    as (q & p & mq & mp & Hq & Hp & _ & _ & _ & _ & Ht & _).
  destruct (Ht adultsTemplate eq_refl eq_refl) as (-> & -> & Hmq & Hmp & Hocc).
  exists mq, mp. split_and!.
  - exact Hq.
  - exact Hp.
  - exact Hmq.
  - exact Hmp.
  - exact (proj1 (Hocc "minimum")).
Defined.

(** C8, as stated, fails: the names a rendering records need not be the
    parameters as a multiset.  [findEither] has the one parameter [x]; its
    query mentions it twice, [setOn] accepts it, and the recorded order is
    [x; x]. *)
Lemma placeholder_order_not_multiset :
  ¬ (∀ sql load meth qm styled m,
       setOn sql load meth = Returns qm →
       precomputedSQL (proxyMethod qm) !! "qmark" = Some (styled, m) →
       names m ≡ₚ drop 1 (parameters (signature meth))).
Proof.
  intros H.
  specialize (H eitherSQL zero findEither _
                "SELECT id FROM pairs WHERE left = ? OR right = ?"
                (mkMap "?" ["x"; "x"]) eq_refl eq_refl).
  apply Permutation_length in H. discriminate H.
Qed.

(** ** Parameter mismatch *)

Lemma bindPositional_raises (args : list object) : ∀ params kwargs a e,
  bindPositional params args kwargs a = Raises e → ∃ msg, e = TypeError msg.
Proof.
  induction args as [|arg args IH]; intros params kwargs a e H; [done|].
  destruct params as [|p ps]; simpl in H; [injection H as <-; by eexists|].
  destruct (kwargs !! param_name p); [injection H as <-; by eexists|].
  by eapply IH.
Qed.

Lemma bindKeywords_raises (params : list Param) : ∀ kwargs a e,
  bindKeywords params kwargs a = Raises e → ∃ msg, e = TypeError msg.
Proof.
  induction params as [|p ps IH]; intros kwargs a e H; [done|].
  simpl in H. destruct (kwargs !! param_name p); [by eapply IH|].
  destruct (param_default p); [by eapply IH|].
  injection H as <-. by eexists.
Qed.

Lemma bind_raises sig args kwargs e :
  bind sig args kwargs = Raises e → ∃ msg, e = TypeError msg.
Proof.
  unfold bind. intros H.
  destruct (bindPositional sig args kwargs ∅) as [[rest a]|e1] eqn:H1.
  - simpl in H.
    destruct (bindKeywords rest kwargs a) as [[kw' a']|e2] eqn:H2.
    + simpl in H. case_decide; [done|]. injection H as <-. by eexists.
    + simpl in H. injection H as <-. by eapply bindKeywords_raises.
  - simpl in H. injection H as <-. by eapply bindPositional_raises.
Qed.

(** C3.  For a declaration whose template renders: when the set of
    placeholder names differs from the set of the method's parameter names
    after the receiver, [setOn] raises [ParamMismatch] carrying the method,
    the placeholder names and the parameter names; when the sets are equal,
    [setOn] accepts the declaration, and a later call fails only with the
    [KeyError] of an unsupported dialect, a [TypeError] of binding the
    call's arguments, or an exception of the loader.  The [query] decorator
    runs [setOn] when it is applied to the method. *)
Theorem parameter_mismatch_at_definition sql load meth styledSQL sampleInstance :
  format_map sql (mkMap "?" []) = Returns (styledSQL, sampleInstance) →
  let selfExcluded := drop 1 (parameters (signature meth)) in
  query sql load meth = setOn sql load meth ∧
  (list_to_set (names sampleInstance) ≠@{gset string} list_to_set selfExcluded →
   setOn sql load meth
     = Raises (ParamMismatch (def_name meth) (names sampleInstance) selfExcluded)) ∧
  (list_to_set (names sampleInstance) =@{gset string} list_to_set selfExcluded →
   ∃ qm, setOn sql load meth = Returns qm ∧
     ∀ proxySelf args kw e st,
       body (proxyMethod qm) proxySelf args kw = (Raises e, st) →
       e = KeyError (paramstyle (__query_connection__ proxySelf)) ∨
       (∃ msg, e = TypeError msg) ∨
       raisedByLoader load proxySelf e).
Proof.
  intros Hq selfExcluded.
  destruct (format_map_both _ _ _ Hq) as (Htok & p & mp & Hp & Htok' & Hn).
  split; [done|].
  rewrite (setOn_eq _ load meth _ _ _ _ Hq Hp). fold selfExcluded. simpl.
  split; intros Hset.
  - by rewrite decide_True.
  - rewrite decide_False by (by intros []). eexists. split; [done|].
    intros proxySelf args kw e st. unfold body.
    cbn [proxyMethod precomputedSQL sig self_load].
    destruct (_ !! paramstyle _) as [[styled m]|] eqn:Hstyle;
      [|intros [= <- <-]; by left].
    destruct (bind (signature meth) (PyNone :: args) kw) as [bound|e'] eqn:Hb.
    + assert (names m = names sampleInstance) as Hm.
      { apply precomputedSQL_lookup in Hstyle as [(_&_&->)|(_&_&->)]; done. }
      destruct (lookupEach_total (apply_defaults (signature meth) bound) (names m))
        as [vals Hvals].
      { eapply names_bound; [|done]. by rewrite Hm. }
      unfold queryArguments. rewrite Hvals. unfold handOff.
      cbn [self_load].
      destruct (load proxySelf) as [co|gen] eqn:Hload; [|done].
      destruct (co _) as [[r|e''] c'] eqn:Hco; [done|].
      intros [= <- <-]. right. right. unfold raisedByLoader. eauto.
    + intros [= <- <-]. right. left. by eapply bind_raises.
Qed.

Lemma parameter_mismatch_at_definition_witness :
  setOn usersSQL zero lookupUserSnake
  = Raises (ParamMismatch "lookupUser" ["userId"] ["user_id"]).
Proof.
  refine (proj1 (proj2
            (parameter_mismatch_at_definition usersSQL zero lookupUserSnake
               "SELECT name FROM users WHERE id = ?" (mkMap "?" ["userId"])
               eq_refl)) _).
  apply (bool_decide_eq_false_1
           (list_to_set ["userId"] =@{gset string} list_to_set ["user_id"])).
  vm_compute. reflexivity.
Defined.

(** ** Defaults *)

(** C10.  In a call of an accepted declaration that binds, let a parameter
    with a default be omitted: no positional argument reaches it and no
    keyword names it.  Then the statement is executed with a parameter list
    that holds the default at every position at which the rendering's
    recorded order names that parameter. *)
Theorem default_applied_before_extraction
    sql load meth qm (j : nat) p d args kw bound style styledSQL styledMap :
  setOn sql load meth = Returns qm →
  NoDup (parameters (signature meth)) →
  precomputedSQL (proxyMethod qm) !! style = Some (styledSQL, styledMap) →
  signature meth !! j = Some p → param_default p = Some d →
  length (PyNone :: args) ≤ j → kw !! param_name p = None →
  bind (signature meth) (PyNone :: args) kw = Returns bound →
  ∃ params,
    queryArguments styledMap (apply_defaults (signature meth) bound)
      = Returns params ∧
    (∀ i : nat, names styledMap !! i = Some (param_name p) →
                params !! i = Some d) ∧
    ∀ respond,
      body (proxyMethod qm) (proxyOn style respond) args kw
      = handOff (proxyMethod qm) (proxyOn style respond)
          (mkCursor (respond styledSQL params) [Execute styledSQL params]).
Proof.
  intros (q & mq & p' & mp & Hq & Hp & _ & _ & Hn & Hset & ->)%setOn_inv
         Hnd Hstyle Hj Hd Hlen Hkw Hbind.
  cbn [proxyMethod precomputedSQL] in Hstyle.
  assert (names styledMap = names mq) as Hm.
  { apply precomputedSQL_lookup in Hstyle as [(_&_&->)|(_&_&->)]; done. }
  destruct (lookupEach_total (apply_defaults (signature meth) bound)
              (names styledMap)) as [params Hparams].
  { eapply names_bound; [|done]. by rewrite Hm. }
  exists params. split_and!; [done| |].
  - intros i Hi. apply lookupEach_Forall2 in Hparams.
    destruct (Forall2_lookup_l _ _ _ _ _ Hparams Hi) as (v & Hiv & Hv).
    rewrite Hiv.
    rewrite <- Hv.
    apply apply_defaults_default; [done| |by eapply bind_omitted|done].
    by eapply list_elem_of_lookup_2.
  - intros respond. unfold body.
    cbn [proxyMethod precomputedSQL sig proxyOn __query_connection__ paramstyle].
    rewrite Hstyle, Hbind. unfold queryArguments in *. by rewrite Hparams.
Qed.

Lemma default_applied_before_extraction_witness :
  ∃ params,
    params !! 0 = Some (PyInt 18) ∧ params !! 1 = Some (PyInt 18) ∧
    ∀ respond,
      body (proxyMethod (adultsMetadata zero)) (proxyOn "qmark" respond)
           [PyInt 5] ∅
      = handOff (proxyMethod (adultsMetadata zero)) (proxyOn "qmark" respond)
          (mkCursor
             (respond "SELECT name FROM users WHERE age >= ? AND rank >= ? LIMIT ?"
                      params)
             [Execute "SELECT name FROM users WHERE age >= ? AND rank >= ? LIMIT ?"
                      params]).
Proof.
  destruct (default_applied_before_extraction adultsSQL zero listAdults
              (adultsMetadata zero) 2 (mkParam "minimum" (Some (PyInt 18)))
              (PyInt 18) [PyInt 5] ∅
              {["self" := PyNone; "limit" := PyInt 5]} "qmark"
              "SELECT name FROM users WHERE age >= ? AND rank >= ? LIMIT ?"
              (mkMap "?" ["minimum"; "minimum"; "limit"]))
    as (params & _ & Hd & Hbody).
  - vm_compute. reflexivity.
  - apply (bool_decide_unpack (NoDup ["self"; "limit"; "minimum"])).
    vm_compute. exact I.
  - vm_compute. reflexivity.
  - reflexivity.
  - reflexivity.
  - simpl. lia.
  - vm_compute. reflexivity.
  - vm_compute. reflexivity.
  - exists params. split_and!; [by apply Hd | by apply Hd | exact Hbody].
Defined.

(** ** Cardinality loaders *)

(** C2.  With a row the loader accepts: a [one] query fails with
    [NotEnoughResults] on no rows and with [TooManyResults] on two rows or
    more, and returns the loader's value on exactly that row; a [maybe]
    query returns [None] on no rows and is [one] on every other result
    set.  Both fetch all rows at once, and the call delivers what the
    translator returns or raises. *)
Theorem one_and_maybe_cardinality caller load db row v log0 :
  call load db row = Returns v →
  let fetched := mkCursor [] (log0 ++ [Fetchall]) in
  awaited (one caller load db) (mkCursor [] log0)
    = (Raises NotEnoughResults, fetched) ∧
  awaited (maybe caller load db) (mkCursor [] log0)
    = (Returns PyNone, fetched) ∧
  awaited (one caller load db) (mkCursor [row] log0) = (Returns v, fetched) ∧
  awaited (maybe caller load db) (mkCursor [row] log0) = (Returns v, fetched) ∧
  (∀ row1 row2 rows,
     awaited (one caller load db) (mkCursor (row1 :: row2 :: rows) log0)
       = (Raises (TooManyResults EmptyString), fetched)) ∧
  (∀ rows, rows ≠ [] →
     awaited (maybe caller load db) (mkCursor rows log0)
       = awaited (one caller load db) (mkCursor rows log0)) ∧
  (∀ params renderings cur,
     handOff (mkProxyMethod params renderings (one caller load)) db cur
       = delivered (awaited (one caller load db) cur) ∧
     handOff (mkProxyMethod params renderings (maybe caller load)) db cur
       = delivered (awaited (maybe caller load db) cur)).
Proof.
  intros Hv fetched. split_and!; try reflexivity.
  - unfold awaited, one, _makeTranslator, await, fetchall, lift, loadRow.
    simpl. by rewrite Hv.
  - unfold awaited, maybe, _makeTranslator, await, fetchall, lift, loadRow.
    simpl. by rewrite Hv.
  - intros [|r rows] Hne; [done|]. reflexivity.
  - intros sg pre cur. unfold handOff, delivered. simpl.
    split; by destruct (_makeTranslator _ _ _ _ _) as [[]].
Qed.

Lemma one_and_maybe_cardinality_witness :
  awaited (one classBody userName (proxyOn "qmark" (fun _ _ => [])))
          (mkCursor [[PyStr "ada"]] [])
  = (Returns (PyStr "ada"), mkCursor [] [Fetchall]).
Proof.
  exact (proj1 (proj2 (proj2
           (one_and_maybe_cardinality classBody userName
              (proxyOn "qmark" (fun _ _ => [])) [PyStr "ada"] (PyStr "ada") []
              eq_refl)))).
Defined.

(** C9.  A [zero] statement calls [fetchone] once and nothing else: on no
    rows it returns [None], on any row it fails with [TooManyResults], and
    at most one row has left the cursor.  [statement] is [query] with the
    [zero] loader, and the call delivers what [zero] returns or raises. *)
Theorem zero_cardinality db rows log0 :
  awaited (zero db) (mkCursor rows log0)
    = match rows with
      | [] => (Returns PyNone, mkCursor [] (log0 ++ [Fetchone]))
      | _ :: rest =>
          (Raises (TooManyResults "statemnts should not return values"),
           mkCursor rest (log0 ++ [Fetchone]))
      end ∧
  length rows ≤ S (length (pending (awaited (zero db) (mkCursor rows log0)).2)) ∧
  advances (awaited (zero db) (mkCursor rows log0)).2
    = S (advances (mkCursor rows log0)) ∧
  (∀ sql f, statement sql f = query sql zero f) ∧
  (∀ params renderings cur,
     handOff (mkProxyMethod params renderings zero) db cur
       = delivered (awaited (zero db) cur)).
Proof.
  split_and!.
  - by destruct rows.
  - destruct rows; simpl; lia.
  - unfold advances. destruct rows; simpl;
      rewrite filter_app, length_app; simpl; lia.
  - done.
  - intros sg pre cur. unfold handOff, delivered. simpl.
    by destruct (await _ _ _) as [[]].
Qed.

(** ** Error attribution *)





(** ** Many *)

Lemma anext_many_row fixer load db row rows v log0 :
  call load db row = Returns v →
  anext (mkGen (translateMany fixer load db) false) (mkCursor (row :: rows) log0)
  = (Yield v, mkGen (translateMany fixer load db) false,
     mkCursor rows (log0 ++ [Fetchone])).
Proof.
  intros Hv. unfold anext, translateMany, fetchone, loadRow. simpl.
  by rewrite Hv.
Qed.

Lemma asyncFor_many_prefix fixer load db (k : nat) : ∀ rows vs log0,
  Forall2 (fun row v => call load db row = Returns v) rows vs →
  k ≤ length rows →
  asyncFor k (mkGen (translateMany fixer load db) false) (mkCursor rows log0)
  = (take k vs, None, mkCursor (drop k rows) (log0 ++ replicate k Fetchone)).
Proof.
  induction k as [|k IH]; intros rows vs log0 Hvs Hk.
  - simpl. by rewrite app_nil_r, take_0.
  - destruct Hvs as [|row v rows vs Hv Hvs]; simpl in Hk; [lia|].
    cbn [asyncFor]. rewrite (anext_many_row _ _ _ _ _ v) by done.
    rewrite (IH rows vs) by (done || lia).
    simpl. by rewrite <- app_assoc.
Qed.

Lemma asyncFor_many_all fixer load db rows : ∀ vs log0 (fuel : nat),
  Forall2 (fun row v => call load db row = Returns v) rows vs →
  length rows < fuel →
  asyncFor fuel (mkGen (translateMany fixer load db) false) (mkCursor rows log0)
  = (vs, Some Return,
     mkCursor [] (log0 ++ replicate (S (length rows)) Fetchone)).
Proof.
  induction rows as [|row rows IH]; intros vs log0 fuel Hvs Hfuel;
    some_fuel fuel Hfuel.
  - apply Forall2_nil_inv_l in Hvs as ->. reflexivity.
  - apply Forall2_cons_inv_l in Hvs as (v & vs' & Hv & Hvs & ->).
    cbn [asyncFor]. rewrite (anext_many_row _ _ _ _ _ v) by done.
    rewrite (IH vs') by (done || simpl in Hfuel; lia).
    simpl. by rewrite <- app_assoc.
Qed.

Lemma consume_many_all fixer load db self rows : ∀ vs log0 (fuel : nat),
  Forall2 (fun row v => call load db row = Returns v) rows vs →
  length rows < fuel →
  consume fuel self
    (mkAiter (Streaming (mkGen (translateMany fixer load db) false))
             (mkCall (Some (mkCursor rows log0)) true))
  = (vs, Some Return,
     mkAiter Finished
       (mkCall (Some (mkCursor []
                        (log0 ++ replicate (S (length rows)) Fetchone ++ [Close])))
               true)).
Proof.
  induction rows as [|row rows IH]; intros vs log0 fuel Hvs Hfuel;
    some_fuel fuel Hfuel.
  - apply Forall2_nil_inv_l in Hvs as ->. cbn. by rewrite <- app_assoc.
  - apply Forall2_cons_inv_l in Hvs as (v & vs' & Hv & Hvs & ->).
    cbn [consume]. unfold aiter_anext, forward. cbn [phase state cur].
    rewrite (anext_many_row _ _ _ _ _ v) by done.
    cbn [maybeai_cursor].
    rewrite (IH vs') by (done || simpl in Hfuel; lia).
    simpl. by rewrite <- app_assoc.
Qed.

(** C4.  Over a result set whose rows the loader accepts, the sequence of a
    [many] query is the loader's value for each row in the driver's order.
    A consumer that has taken [k] elements has made [k] calls of [fetchone]
    and left the other rows in the cursor; the iteration ends, with any
    fuel beyond the number of rows, at the one further [fetchone] that
    reports no more rows.  Iterating the result object of the call gives
    the same elements and then closes the cursor. *)
Theorem many_yields_each_row caller load db rows vs log0 :
  Forall2 (fun row v => call load db row = Returns v) rows vs →
  ∃ gen, many caller load db = AIterable gen ∧
    (∀ k : nat, k ≤ length rows →
       asyncFor k gen (mkCursor rows log0)
       = (take k vs, None,
          mkCursor (drop k rows) (log0 ++ replicate k Fetchone))) ∧
    (∀ k : nat, k ≤ length rows →
       advances (asyncFor k gen (mkCursor rows log0)).2
       = advances (mkCursor rows log0) + k) ∧
    (∀ fuel : nat, length rows < fuel →
       asyncFor fuel gen (mkCursor rows log0)
       = (vs, Some Return,
          mkCursor [] (log0 ++ replicate (S (length rows)) Fetchone))) ∧
    (∀ params renderings (fuel : nat), length rows < fuel →
       let self :=
         mkMaybeAIterable
           (handOff (mkProxyMethod params renderings (many caller load)) db
                    (mkCursor rows log0)) in
       consume fuel self (__aiter__ self)
       = (vs, Some Return,
          mkAiter Finished
            (mkCall
               (Some (mkCursor []
                        (log0 ++ replicate (S (length rows)) Fetchone ++ [Close])))
               true))).
Proof.
  intros Hvs. eexists. split; [reflexivity|]. split_and!.
  - intros k Hk. by apply asyncFor_many_prefix.
  - intros k Hk. rewrite (asyncFor_many_prefix _ _ _ _ _ vs) by done.
    unfold advances. simpl. rewrite filter_app, length_app. f_equal.
    clear. induction k as [|k IH]; [done|].
    change (replicate (S k) Fetchone) with (Fetchone :: replicate k Fetchone).
    rewrite filter_cons. simpl. by rewrite IH.
  - intros fuel Hfuel. by apply asyncFor_many_all.
  - intros sg pre fuel Hfuel self.
    rewrite <- (consume_many_all (create caller load) load db self rows vs log0
                  fuel Hvs Hfuel).
    destruct fuel as [|fuel]; [lia|]. reflexivity.
Qed.

Lemma many_yields_each_row_witness :
  ∃ gen, many classBody userName (proxyOn "qmark" (fun _ _ => []))
         = AIterable gen ∧
    asyncFor 3 gen (mkCursor [[PyStr "ada"]; [PyStr "bob"]] [])
    = ([PyStr "ada"; PyStr "bob"], Some Return,
       mkCursor [] [Fetchone; Fetchone; Fetchone]).
Proof.
  destruct (many_yields_each_row classBody userName
              (proxyOn "qmark" (fun _ _ => []))
              [[PyStr "ada"]; [PyStr "bob"]] [PyStr "ada"; PyStr "bob"] [])
    as (gen & Hgen & _ & Hall).
  - repeat constructor.
  - exists gen. split; [exact Hgen|]. apply Hall. simpl. lia.
Defined.

(** ** Accessor factory *)

Lemma filterLoop_eq ignored (ns : list (string * NamespaceValue)) :
  ∀ extraneous,
  filterLoop ignored ns extraneous
  = (omap (fun item => (fun qm => (item.1, qm)) <$> loadFrom item.2) ns,
     extraneous ++ extraneousNames ignored ns).
Proof.
  unfold extraneousNames.
  induction ns as [|[attrname value] ns IH]; intros extraneous.
  - simpl. by rewrite app_nil_r.
  - simpl. destruct value as [|qm]; simpl.
    + rewrite filter_cons. case_decide.
      * rewrite IH. by rewrite <- app_assoc.
      * by rewrite IH.
    + by rewrite IH.
Qed.

Lemma yielded_closures (ns : list (string * NamespaceValue)) :
  (fun item : string * QueryMetadata => (item.1, proxyMethod item.2))
    <$> omap (fun item => (fun qm => (item.1, qm)) <$> loadFrom item.2) ns
  = boundClosures ns.
Proof.
  induction ns as [|[attrname value] ns IH]; [done|].
  destruct value as [|qm]; [exact IH|].
  change (boundClosures ((attrname, QueryMethod qm) :: ns))
    with ((attrname, proxyMethod qm) :: boundClosures ns).
  rewrite <- IH. reflexivity.
Qed.

(** C6, as the code has it.  The members that count are those without
    query metadata whose name is not an attribute of an empty protocol
    class.  If there is one, [accessor] raises [ExtraneousMethods] with
    exactly their names, in the order of the namespace, and returns no type;
    otherwise it returns the type whose namespace maps each member that has
    metadata to its [proxyMethod] closure, and holds nothing else. *)
Theorem accessor_rejects_extraneous (ignored : gset string)
    (protocol : ProtocolClass) :
  accessor ignored protocol
  = match extraneousNames ignored (__dict__ protocol) with
    | [] =>
        Returns (mkType ("_" +:+ class_name protocol +:+ "_Accessor")
                   ["AccessProxy"]
                   (dict (boundClosures (__dict__ protocol))))
    | name :: others => Raises (ExtraneousMethods (name :: others))
    end.
Proof.
  unfold accessor, filterProtocolNamespace.
  rewrite filterLoop_eq. simpl.
  destruct (extraneousNames ignored (__dict__ protocol)); [|done].
  by rewrite yielded_closures.
Qed.

(** C6, as stated, fails: [Users] has members without metadata, among them
    its docstring and module name, and [accessor] builds its proxy type
    whenever those names are attributes of an empty protocol class, as they
    are of every class. *)
Lemma accessor_ignores_baseline_attributes :
  unannotated (__dict__ Users)
    = ["__module__"; "__doc__"; "__dict__"; "__weakref__"] ∧
  ∀ ignored : gset string,
    "__module__" ∈ ignored → "__doc__" ∈ ignored →
    "__dict__" ∈ ignored → "__weakref__" ∈ ignored →
    accessor ignored Users
    = Returns (mkType "_Users_Accessor" ["AccessProxy"]
                 {["lookupUser" :=
                     proxyMethod (usersMetadata (one classBody userName))]}).
Proof.
  split; [reflexivity|]. intros ignored Hm Hd Hdict Hw.
  unfold accessor, filterProtocolNamespace.
  rewrite filterLoop_eq. unfold extraneousNames. simpl.
  rewrite !filter_cons, filter_nil.
  by rewrite !decide_False by (intros H; by apply H).
Qed.

(** ** The cursor of a call *)

Lemma closes_snoc rows rows' (l : list DriverCall) (d : DriverCall) :
  closes (mkCursor rows (l ++ [d]))
  = closes (mkCursor rows' l) + (if isClose d then 1 else 0).
Proof.
  unfold closes. simpl. rewrite filter_app, length_app.
  f_equal. rewrite filter_cons, filter_nil. by destruct d.
Qed.

(** A call that is awaited and succeeds closes the cursor after the loader
    is done with it. *)
Lemma await_success_closes pm proxySelf cur co result cur' :
  self_load pm proxySelf = Awaitable co → co cur = (Returns result, cur') →
  handOff pm proxySelf cur
    = (Returns (Value result),
       mkCall (Some (mkCursor (pending cur') (log cur' ++ [Close]))) false) ∧
  closed (handOff pm proxySelf cur).2 = closes cur' + 1.
Proof.
  intros Hload Hco. unfold handOff. rewrite Hload, Hco.
  split; [done|]. unfold closed, close. simpl.
  rewrite (closes_snoc _ (pending cur')). by destruct cur'.
Qed.

(** A call that is awaited and fails leaves the cursor as the loader left
    it: [close] is not reached. *)
Lemma await_failure_skips_close pm proxySelf cur co e cur' :
  self_load pm proxySelf = Awaitable co → co cur = (Raises e, cur') →
  handOff pm proxySelf cur = (Raises e, mkCall (Some cur') false) ∧
  closed (handOff pm proxySelf cur).2 = closes cur'.
Proof.
  intros Hload Hco. unfold handOff. by rewrite Hload, Hco.
Qed.

(** Iterating a [many] query: however far the consumer gets, and however
    the iteration ends, the cursor has been closed once when the iterator
    is finished or abandoned. *)
Lemma consume_streaming_closes fixer load db self (n : nat) : ∀ c vs fin it,
  closes c = 0 →
  consume n self
    (mkAiter (Streaming (mkGen (translateMany fixer load db) false))
             (mkCall (Some c) true))
  = (vs, fin, it) →
  closed (state (aiter_aclose it)) = 1.
Proof.
  induction n as [|n IH]; intros c vs fin it Hc H.
  - injection H as <- <- <-. unfold aiter_aclose, finallyClose, closed, close.
    simpl. rewrite (closes_snoc _ (pending c)). destruct c. simpl in *. lia.
  - cbn [consume] in H. unfold aiter_anext, forward in H. simpl in H.
    unfold anext, translateMany, fetchone in H. simpl in H.
    assert (∀ rows, closes (mkCursor rows (log c ++ [Fetchone])) = 0) as Hc'.
    { intros rows. rewrite (closes_snoc _ (pending c)). destruct c.
      simpl in *. lia. }
    assert (∀ rows, closed (mkCall (Some (mkCursor rows
                       ((log c ++ [Fetchone]) ++ [Close]))) true) = 1) as Hd.
    { intros rows. unfold closed. simpl.
      rewrite (closes_snoc _ rows). rewrite Hc'. done. }
    destruct (pending c) as [|row rows].
    + simpl in H. injection H as <- <- <-. apply Hd.
    + destruct (loadRow fixer load db row) as [v|e]; simpl in H.
      * destruct (consume n self _) as [[vs' fin'] it'] eqn:Hrest.
        injection H as <- <- <-. eapply IH; [|exact Hrest]. apply Hc'.
      * injection H as <- <- <-. apply Hd.
Qed.

Lemma iteration_closes_once caller load pm proxySelf cur (n : nat) :
  self_load pm proxySelf = many caller load proxySelf → closes cur = 0 →
  closed (state
            (consumeAndClose (S n)
               (mkMaybeAIterable (handOff pm proxySelf cur))).2) = 1.
Proof.
  intros Hload Hc. unfold consumeAndClose.
  destruct (consume _ _ _) as [[vs fin] it] eqn:H. simpl.
  cbn [consume] in H. unfold aiter_anext, __aiter__, __await__ in H.
  cbn [phase down] in H. unfold handOff in H. rewrite Hload in H.
  cbn [many] in H.
  change (forward ?g ?st) with
    (aiter_anext (mkMaybeAIterable (handOff pm proxySelf cur))
       (mkAiter (Streaming g) st)) in H.
  eapply (consume_streaming_closes _ _ _ _ (S n)); [exact Hc|].
  cbn [consume]. exact H.
Qed.

(** C1, at the failing input.  The users query as a [one] query, called
    with [userId=7] on a qmark connection whose database has no such row:
    the call opens a cursor, executes, fetches all rows and fails with
    [NotEnoughResults]; the cursor's log ends there, without a [Close]. *)
Theorem await_failure_leaves_cursor_open :
  let pm := proxyMethod (usersMetadata (one classBody userName)) in
  let db := proxyOn "qmark" (fun _ _ => []) in
  setOn usersSQL (one classBody userName) lookupUser
    = Returns (usersMetadata (one classBody userName)) ∧
  __await__ (call_proxyMethod pm db [PyInt 7] ∅)
    = (Raises NotEnoughResults,
       mkCall (Some (mkCursor []
                       [Execute "SELECT name FROM users WHERE id = ?" [PyInt 7];
                        Fetchall]))
              false) ∧
  closed (__await__ (call_proxyMethod pm db [PyInt 7] ∅)).2 = 0.
Proof.
  split_and!; vm_compute; reflexivity.
Qed.

(** The same call on a database that has the row closes its cursor, and so
    does the iteration of the query declared with [many], also when the
    loader rejects a row or the consumer stops early. *)
Example await_success_closes_cursor :
  __await__ (call_proxyMethod
               (proxyMethod (usersMetadata (one classBody userName)))
               (proxyOn "qmark" (fun _ _ => [[PyStr "ada"]])) [PyInt 7] ∅)
  = (Returns (Value (PyStr "ada")),
     mkCall (Some (mkCursor []
                     [Execute "SELECT name FROM users WHERE id = ?" [PyInt 7];
                      Fetchall; Close]))
            false).
Proof. vm_compute. reflexivity. Qed.

Example iteration_failure_closes_cursor :
  let self :=
    call_proxyMethod (proxyMethod (usersMetadata (many classBody userName)))
      (proxyOn "qmark" (fun _ _ => [[PyStr "ada"]; [PyStr "bob"; PyInt 3]]))
      [PyInt 7] ∅ in
  ∃ e it, consume 5 self (__aiter__ self) = ([PyStr "ada"], Some (Throw e), it) ∧
          closed (state it) = 1.
Proof. eexists _, _. split; vm_compute; reflexivity. Qed.

Example iteration_abandoned_closes_cursor :
  let self :=
    call_proxyMethod (proxyMethod (usersMetadata (many classBody userName)))
      (proxyOn "qmark" (fun _ _ => [[PyStr "ada"]; [PyStr "bob"]; [PyStr "cy"]]))
      [PyInt 7] ∅ in
  (consumeAndClose 1 self).1 = ([PyStr "ada"], None) ∧
  closed (state (consumeAndClose 1 self).2) = 1.
Proof. split; vm_compute; reflexivity. Qed.

(** * The schema builder *)

(** The repository's tests. *)
Example test_simpleSchema :
  Schema.exec Schema.Hello Schema.fresh
  = (Schema.Done tt,
     Schema.mkBuilder
       ("CREATE TABLE IF NOT EXISTS hello (" +:+ Schema.nl +:+
        "    foo INTEGER NOT NULL," +:+ Schema.nl +:+
        "    bar TEXT NOT NULL," +:+ Schema.nl +:+
        "    UNIQUE (foo)" +:+ Schema.nl +:+
        ");" +:+ Schema.nl)
       [] 1).
Proof. vm_compute. reflexivity. Qed.

Example test_nesting :
  Schema.exec Schema.HelloGoodbye Schema.fresh
  = (Schema.Done tt,
     Schema.mkBuilder
       ("CREATE TABLE IF NOT EXISTS goodbye (" +:+ Schema.nl +:+
        "    farewell TEXT NOT NULL" +:+ Schema.nl +:+
        ");" +:+ Schema.nl +:+
        "CREATE TABLE IF NOT EXISTS hello (" +:+ Schema.nl +:+
        "    foo INTEGER NOT NULL," +:+ Schema.nl +:+
        "    bar TEXT NOT NULL" +:+ Schema.nl +:+
        ");" +:+ Schema.nl)
       [] 2).
Proof. vm_compute. reflexivity. Qed.

Lemma Statement_induction (P : Schema.Statement → Prop) :
  (∀ text, P (Schema.Column text)) →
  (∀ text, P (Schema.Constraint text)) →
  (∀ name body, Forall P body → P (Schema.Class name body)) →
  ∀ s, P s.
Proof.
  intros HColumn HConstraint HClass.
  fix IH 1. intros [text|text|name body].
  - apply HColumn.
  - apply HConstraint.
  - apply HClass. induction body as [|s body IHbody]; constructor.
    + apply IH.
    + apply IHbody.
Qed.

Lemma exec_Class name body self :
  Schema.exec (Schema.Class name body) self
  = match Schema.execAll body (Schema.table name self).2 with
    | (Schema.Done _, self') =>
        Schema.buildSchema (Schema.table name self).1 self'
    | (Schema.Failed e, self') => (Schema.Failed e, self')
    end.
Proof. reflexivity. Qed.

(** What a statement does to the working table on top of the stack. *)
Lemma execAll_in_class (body : list Schema.Statement) :
  Forall (fun s => ∀ self,
            Schema.isClass s = true →
            Schema.exec s self
            = (Schema.Done tt,
               Schema.mkBuilder (Schema.schema self +:+ Schema.emitted s)
                 (Schema._stack self)
                 (Schema.allocated self + Schema.classes s))) body →
  ∀ self top back,
  Schema._stack self = top :: back →
  Schema.execAll body self
  = (Schema.Done tt,
     Schema.mkBuilder (Schema.schema self +:+ Schema.emittedAll body)
       (Schema.mkWorkingTable (Schema.ident top)
          (Schema.columns top ++ Schema.ownColumns body)
          (Schema.constraints top ++ Schema.ownConstraints body) :: back)
       (Schema.allocated self + Schema.classesAll body)).
Proof.
  induction 1 as [|s body Hs _ IH]; intros self top back Hstack.
  - simpl. rewrite append_nil_r, !app_nil_r, Nat.add_0_r.
    destruct self, top. simpl in *. by subst.
  - cbn [Schema.execAll]. destruct s as [text|text|name inner].
    + unfold Schema.exec, Schema.column. rewrite Hstack.
      erewrite IH by reflexivity. cbn.
      by rewrite append_nil_l, <- !app_assoc.
    + unfold Schema.exec, Schema.constraint. rewrite Hstack.
      erewrite IH by reflexivity. cbn.
      by rewrite append_nil_l, <- !app_assoc.
    + rewrite Hs by done. erewrite IH by (cbn; exact Hstack). cbn.
      by rewrite append_assoc, <- Nat.add_assoc.
Qed.

Lemma exec_class_ok (s : Schema.Statement) : ∀ self,
  Schema.isClass s = true →
  Schema.exec s self
  = (Schema.Done tt,
     Schema.mkBuilder (Schema.schema self +:+ Schema.emitted s)
       (Schema._stack self)
       (Schema.allocated self + Schema.classes s)).
Proof.
  induction s as [text|text|name body IH] using Statement_induction;
    intros self Hclass; [done|done|].
  rewrite exec_Class.
  rewrite (execAll_in_class body IH _ (Schema.mkWorkingTable (Schema.allocated self) [] [])
             (Schema._stack self)) by reflexivity.
  unfold Schema.buildSchema, Schema.pop, Schema.get. cbn.
  rewrite decide_True by done. cbn.
  by rewrite append_assoc, <- Nat.add_succ_r.
Qed.

(** X1.  A decorated class never fails, however its body nests further
    classes: it leaves the stack as it found it and appends to the schema
    the tables of the classes nested in its body, in order, followed by
    its own table, whose lines are the columns declared directly in the body
    and then the constraints declared directly in it. *)
Theorem decorated_class_emits_nested_then_own name body self :
  Schema.exec (Schema.Class name body) self
  = (Schema.Done tt,
     Schema.mkBuilder
       (Schema.schema self +:+ Schema.emittedAll body +:+
        Schema._tableSchema name
          (Schema.join ("," +:+ Schema.nl +:+ "    ")
             (Schema.ownColumns body ++ Schema.ownConstraints body)))
       (Schema._stack self)
       (Schema.allocated self + S (Schema.classesAll body))) ∧
  ∀ top back,
    Schema._stack self = top :: back →
    Schema.execAll body self
    = (Schema.Done tt,
       Schema.mkBuilder (Schema.schema self +:+ Schema.emittedAll body)
         (Schema.mkWorkingTable (Schema.ident top)
            (Schema.columns top ++ Schema.ownColumns body)
            (Schema.constraints top ++ Schema.ownConstraints body) :: back)
         (Schema.allocated self + Schema.classesAll body)).
Proof.
  split.
  - by rewrite exec_class_ok.
  - apply execAll_in_class. apply Forall_forall. intros s _ self'.
    apply exec_class_ok.
Qed.

Lemma decorated_class_emits_nested_then_own_witness :
  Schema._stack (Schema.mkBuilder "" [Schema.mkWorkingTable 0 [] []] 1)
  = Schema.mkWorkingTable 0 [] [] :: [] ∧
  Schema.execAll
    [ Schema.Column "foo INTEGER NOT NULL";
      Schema.Class "goodbye" [ Schema.Column "farewell TEXT NOT NULL" ];
      Schema.Constraint "UNIQUE (foo)" ]
    (Schema.mkBuilder "" [Schema.mkWorkingTable 0 [] []] 1)
  = (Schema.Done tt,
     Schema.mkBuilder
       (Schema._tableSchema "goodbye" "farewell TEXT NOT NULL")
       [ Schema.mkWorkingTable 0 ["foo INTEGER NOT NULL"] ["UNIQUE (foo)"] ]
       2).
Proof.
  split; [reflexivity|].
  rewrite (proj2 (decorated_class_emits_nested_then_own "hello"
                    [ Schema.Column "foo INTEGER NOT NULL";
                      Schema.Class "goodbye"
                        [ Schema.Column "farewell TEXT NOT NULL" ];
                      Schema.Constraint "UNIQUE (foo)" ]
                    (Schema.mkBuilder "" [Schema.mkWorkingTable 0 [] []] 1))
             (Schema.mkWorkingTable 0 [] []) [] eq_refl).
  vm_compute. reflexivity.
Defined.

Lemma execAll_classes (tables more : list Schema.Statement) : ∀ self,
  forallb Schema.isClass tables = true →
  Schema.execAll (tables ++ more) self
  = Schema.execAll more
      (Schema.mkBuilder (Schema.schema self +:+ Schema.emittedAll tables)
         (Schema._stack self)
         (Schema.allocated self + Schema.classesAll tables)).
Proof.
  induction tables as [|s tables IH]; intros self Htables.
  - cbn. rewrite append_nil_r, Nat.add_0_r. by destruct self.
  - cbn in Htables. apply andb_prop in Htables as [Hs Htables].
    cbn [app Schema.execAll]. rewrite exec_class_ok by done.
    rewrite IH by done. cbn.
    by rewrite append_assoc, <- Nat.add_assoc.
Qed.

(** X2.  At the top level, outside any class, the first column or
    constraint fails with [RuntimeError].  The classes before it have
    written their tables; nothing after it runs, and the stack is still
    empty. *)
Theorem column_outside_class_fails tables s rest self :
  Schema._stack self = [] →
  forallb Schema.isClass tables = true →
  Schema.isClass s = false →
  Schema.execAll (tables ++ s :: rest) self
  = (Schema.Failed (Schema.RuntimeError "not currently defining a table"),
     Schema.mkBuilder (Schema.schema self +:+ Schema.emittedAll tables) []
       (Schema.allocated self + Schema.classesAll tables)).
Proof.
  intros Hstack Htables Hs. rewrite execAll_classes by done.
  rewrite Hstack. by destruct s.
Qed.

Lemma column_outside_class_fails_witness :
  Schema.execAll [Schema.Hello; Schema.Column "baz TEXT"; Schema.HelloGoodbye]
                 Schema.fresh
  = (Schema.Failed (Schema.RuntimeError "not currently defining a table"),
     Schema.mkBuilder (Schema.emitted Schema.Hello) [] 1).
Proof.
  exact (column_outside_class_fails [Schema.Hello] (Schema.Column "baz TEXT")
           [Schema.HelloGoodbye] Schema.fresh eq_refl eq_refl eq_refl).
Defined.

(** X3.  Two decorators obtained one after the other and applied in the
    order they were obtained both fail with [AssertionError]: each pops the
    table of the other.  Neither table is written, and the stack is back
    where it was before the two calls of [table]. *)
Theorem decorators_out_of_order a b self :
  let first := Schema.table a self in
  let second := Schema.table b first.2 in
  let after := Schema.buildSchema first.1 second.2 in
  after
  = (Schema.Failed (Schema.AssertionError "stack should match"),
     Schema.mkBuilder (Schema.schema self) (Schema._stack first.2)
       (S (S (Schema.allocated self)))) ∧
  Schema.buildSchema second.1 after.2
  = (Schema.Failed (Schema.AssertionError "stack should match"),
     Schema.mkBuilder (Schema.schema self) (Schema._stack self)
       (S (S (Schema.allocated self)))).
Proof.
  cbn. unfold Schema.buildSchema, Schema.pop, Schema.get. cbn.
  rewrite decide_False by lia. cbn.
  rewrite decide_False by lia. done.
Qed.

Lemma exec_allocatedHere (s : Schema.Statement) self :
  Schema.allocatedHere self → Schema.allocatedHere (Schema.exec s self).2.
Proof.
  unfold Schema.allocatedHere. intros Hwf.
  destruct s as [text|text|name body].
  - unfold Schema.exec, Schema.column.
    destruct (Schema._stack self) as [|top back] eqn:Hstack; cbn;
      [by rewrite Hstack|].
    apply Forall_cons in Hwf as [Htop Hback]. by constructor.
  - unfold Schema.exec, Schema.constraint.
    destruct (Schema._stack self) as [|top back] eqn:Hstack; cbn;
      [by rewrite Hstack|].
    apply Forall_cons in Hwf as [Htop Hback]. by constructor.
  - rewrite exec_class_ok by done. cbn.
    eapply Forall_impl; [exact Hwf|]. cbn. intros w Hw. lia.
Qed.

(** X4.  Every working table on the stack of a builder has been allocated
    by it, from the fresh builder on and through every statement, failing
    or not.  On such a builder a decorator works once: applied again after
    its class is complete it writes nothing, failing with [RuntimeError] on
    an empty stack and otherwise with [AssertionError] after popping a
    table that is not its own. *)
Theorem decorator_applies_once name body self :
  Schema.allocatedHere self →
  let done := (Schema.exec (Schema.Class name body) self).2 in
  Schema.allocatedHere Schema.fresh ∧
  (∀ s, Schema.allocatedHere (Schema.exec s self).2) ∧
  Schema.buildSchema (Schema.table name self).1 done
  = match Schema._stack self with
    | [] =>
        (Schema.Failed (Schema.RuntimeError "not currently defining a table"),
         done)
    | _ :: back =>
        (Schema.Failed (Schema.AssertionError "stack should match"),
         Schema.mkBuilder (Schema.schema done) back (Schema.allocated done))
    end.
Proof.
  intros Hwf done. split_and!.
  - constructor.
  - intros s. by apply exec_allocatedHere.
  - unfold done. rewrite exec_class_ok by done.
    unfold Schema.buildSchema, Schema.pop, Schema.get. cbn.
    destruct (Schema._stack self) as [|top back] eqn:Hstack; [done|]. cbn.
    unfold Schema.allocatedHere in Hwf. rewrite Hstack in Hwf.
    apply Forall_cons in Hwf as [Htop _].
    rewrite decide_False by lia. done.
Qed.

Lemma decorator_applies_once_witness :
  Schema.buildSchema (Schema.table "hello" Schema.fresh).1
    (Schema.exec Schema.Hello Schema.fresh).2
  = (Schema.Failed (Schema.RuntimeError "not currently defining a table"),
     (Schema.exec Schema.Hello Schema.fresh).2).
Proof.
  refine (proj2 (proj2 (decorator_applies_once "hello" _ Schema.fresh _))).
  constructor.
Defined.

(** * Further properties of the binding engine *)

(** ** Rendering *)

Lemma vformat_braceFree (pre : string) : ∀ s out m,
  braceFree pre = true →
  vformat (pre +:+ s) Text out m = vformat s Text (out +:+ pre) m.
Proof.
  induction pre as [|c pre IH]; intros s out m Hpre.
  - by rewrite append_nil_l, append_nil_r.
  - cbn in Hpre. apply andb_prop in Hpre as [Hc Hpre].
    apply andb_prop in Hc as [Ho%bool_decide_eq_true Hc%bool_decide_eq_true].
    rewrite append_cons. scan_step. rewrite !decide_False by done.
    rewrite IH by done. by rewrite snoc_append.
Qed.

(** The scanner fails only with a [ValueError], or stops at a field that is
    not modelled. *)
Lemma vformat_raises (s : string) : ∀ st out m e,
  vformat s st out m = Raises e →
  ∃ msg, e = ValueError msg ∨ e = OutsideModel msg.
Proof.
  induction s as [|c s IH]; intros st out m e H.
  - destruct st; simpl in H; try done; injection H as <-; eauto.
  - rewrite vformat_cons in H.
    destruct (scanChar st c out m) as [[[st' out'] m']|e'] eqn:Hc.
    + by eapply IH.
    + injection H as ->. revert Hc. unfold scanChar, fieldChar.
      destruct st; repeat case_decide; try done;
        try destruct (tooManyDigits _ _); try destruct (positionalField _);
        try done;
        intros [= <-]; eauto.
Qed.

(** X5.  On SQL whose rendering does not stop at a field that is not
    modelled (one with a conversion, a format specification or an attribute
    or index lookup), the dialect does not matter for the outcome: the
    qmark and the pyformat rendering fail together, with the same
    [ValueError], or succeed together.  When they succeed the SQL is the
    text of one template of literal characters and named placeholders, each
    rendering is that template with its own token at every placeholder, and
    both record the template's names in order. *)
Theorem dialects_render_the_same_template (sql : string) :
  (∀ what, format_map sql (mkMap "?" []) ≠ Raises (OutsideModel what)) →
  match format_map sql (mkMap "?" []), format_map sql (mkMap "%s" []) with
  | Raises e1, Raises e2 => e1 = e2 ∧ ∃ msg, e1 = ValueError msg
  | Returns (q, mq), Returns (p, mp) =>
      ∃ t, namedPlaceholders t ∧ templateText t = sql ∧
           q = rendered "?" t ∧ p = rendered "%s" t ∧
           mq = mkMap "?" (placeholderOrder t) ∧
           mp = mkMap "%s" (placeholderOrder t)
  | _, _ => False
  end.
Proof.
  intros Hmodelled.
  pose proof (vformat_sameOrder sql Text EmptyString EmptyString
                (mkMap "?" []) (mkMap "%s" []) eq_refl) as Hsame.
  unfold sameOrder in Hsame. fold (format_map sql (mkMap "?" [])) in Hsame.
  fold (format_map sql (mkMap "%s" [])) in Hsame.
  destruct (format_map sql (mkMap "?" [])) as [[q mq]|e1] eqn:Hq,
           (format_map sql (mkMap "%s" [])) as [[p mp]|e2] eqn:Hp; try done.
  - destruct (format_map_is_template _ _ _ _ Hq) as (t & <- & Ht).
    exists t. rewrite (format_map_template t "?" Ht) in Hq.
    rewrite (format_map_template t "%s" Ht) in Hp.
    injection Hq as <- <-. injection Hp as <- <-. done.
  - split; [done|].
    apply vformat_raises in Hq as [msg [->| ->]]; [by exists msg|].
    by destruct (Hmodelled msg).
Qed.

Lemma dialects_render_the_same_template_witness :
  format_map "a = {a} AND b = {}" (mkMap "?" [])
    = Raises (ValueError "Format string contains positional fields") ∧
  format_map "a = {a} AND b = {}" (mkMap "%s" [])
    = Raises (ValueError "Format string contains positional fields").
Proof.
  pose proof (dialects_render_the_same_template "a = {a} AND b = {}") as H.
  assert (format_map "a = {a} AND b = {}" (mkMap "?" [])
          = Raises (ValueError "Format string contains positional fields"))
    as Hq by (vm_compute; reflexivity).
  rewrite Hq in H. split; [done|].
  assert (∀ what,
            Raises (A := string * IndexCountingParamstyleMap)
              (ValueError "Format string contains positional fields")
            ≠ Raises (OutsideModel what)) as Hmodelled by done.
  specialize (H Hmodelled).
  destruct (format_map "a = {a} AND b = {}" (mkMap "%s" [])) as [[p mp]|e2];
    [done|].
  by destruct H as [<- _].
Defined.

(** X6.  When the rendering of the template fails with a [ValueError],
    [setOn] raises that [ValueError] whatever the method's parameters are:
    the parameters are not compared, and no [ParamMismatch] is raised.
    After text without braces, a closing brace alone, an empty replacement
    field, a name of twenty nines and a letter, an opening brace at the end
    and a field that is not closed are such templates. *)
Theorem setOn_raises_rendering_error sql load meth msg :
  format_map sql (mkMap "?" []) = Raises (ValueError msg) →
  setOn sql load meth = Raises (ValueError msg) ∧
  ∀ pre rest c n,
    braceFree pre = true →
    (c ≠ "}"%char →
     setOn (pre +:+ String "}" (String c rest)) load meth
     = Raises (ValueError "Single '}' encountered in format string")) ∧
    setOn (pre +:+ "{}" +:+ rest) load meth
    = Raises (ValueError "Format string contains positional fields") ∧
    setOn (pre +:+ "{99999999999999999999a}" +:+ rest) load meth
    = Raises (ValueError "Too many decimal digits in format string") ∧
    setOn (pre +:+ "{") load meth
    = Raises (ValueError "Single '{' encountered in format string") ∧
    (nameChars (String c n) = true →
     setOn (pre +:+ "{" +:+ String c n) load meth
     = Raises (ValueError "expected '}' before end of string")).
Proof.
  intros He.
  assert (∀ sql' e', format_map sql' (mkMap "?" []) = Raises e' →
                     setOn sql' load meth = Raises e') as Hset.
  { intros sql' e' H. unfold setOn. by rewrite renderStyles_eq, H. }
  split; [by apply Hset|].
  intros pre rest c n Hpre. split_and!.
  - intros Hc. apply Hset. unfold format_map.
    rewrite vformat_braceFree by done. scan_step. cbv iota beta.
    scan_step. by rewrite decide_False.
  - apply Hset. unfold format_map.
    rewrite vformat_braceFree by done.
    rewrite !append_cons, append_nil_l. scan_step. cbv iota beta.
    scan_step. done.
  - apply Hset. unfold format_map.
    rewrite vformat_braceFree by done. vm_compute. reflexivity.
  - apply Hset. unfold format_map.
    rewrite vformat_braceFree by done. reflexivity.
  - intros Hn. apply Hset. unfold format_map.
    rewrite vformat_braceFree by done.
    rewrite append_cons, append_nil_l. scan_step. cbv iota beta.
    assert (c ≠ "{"%char) as Hne.
    { simpl in Hn. apply andb_prop in Hn as [Hc _].
      unfold nameChar in Hc. apply bool_decide_eq_true in Hc.
      rewrite !not_elem_of_cons in Hc. tauto. }
    rewrite <- (append_nil_r (String c n)).
    change (vformat (String c n +:+ EmptyString) Opened (EmptyString +:+ pre)
              (mkMap "?" []))
      with (match scanChar Opened c (EmptyString +:+ pre) (mkMap "?" []) with
            | Returns (st', out', m') => vformat (n +:+ EmptyString) st' out' m'
            | Raises e => Raises e
            end).
    simpl scanChar. rewrite decide_False by done.
    simpl in Hn. apply andb_prop in Hn as [Hc Hn].
    rewrite fieldChar_nameChar by done.
    rewrite vformat_name by done. reflexivity.
Qed.

Lemma setOn_raises_rendering_error_witness :
  setOn "SELECT 1 FROM t WHERE a = {}" zero lookupUser
  = Raises (ValueError "Format string contains positional fields").
Proof.
  exact (proj1 (setOn_raises_rendering_error "SELECT 1 FROM t WHERE a = {}"
                  zero lookupUser _ eq_refl)).
Defined.

(** X7.  SQL without braces renders to itself under every token and
    records no name.  [setOn] accepts it for a method that has no parameter
    after the receiver, storing the SQL itself for both dialects, and
    rejects it with [ParamMismatch] for every other method. *)
Theorem statement_without_placeholders sql load meth :
  braceFree sql = true →
  (∀ m, format_map sql m = Returns (sql, m)) ∧
  setOn sql load meth
  = match drop 1 (parameters (signature meth)) with
    | [] =>
        Returns (mkQueryMetadata sql load
                   (mkProxyMethod (signature meth)
                      (<["pyformat" := (sql, mkMap "%s" [])]>
                         (<["qmark" := (sql, mkMap "?" [])]> ∅))
                      load))
    | name :: others =>
        Raises (ParamMismatch (def_name meth) [] (name :: others))
    end.
Proof.
  intros Hsql.
  assert (∀ m, format_map sql m = Returns (sql, m)) as Hfmt.
  { intros m. unfold format_map. rewrite <- (append_nil_r sql) at 1.
    by rewrite vformat_braceFree. }
  split; [done|].
  rewrite (setOn_eq _ load meth _ _ _ _ (Hfmt _) (Hfmt _)). cbn.
  destruct (drop 1 (parameters (signature meth))) as [|name others].
  - by rewrite decide_False by (by intros []).
  - rewrite decide_True; [done|]. intros H.
    assert (name ∈@{gset string} list_to_set (name :: others)) as Hin
      by (apply elem_of_list_to_set; by left).
    rewrite <- H in Hin. by apply not_elem_of_empty in Hin.
Qed.

Lemma statement_without_placeholders_witness :
  setOn "DELETE FROM users" zero lookupUser
  = Raises (ParamMismatch "lookupUser" [] ["userId"]).
Proof.
  exact (proj2 (statement_without_placeholders "DELETE FROM users" zero
                  lookupUser eq_refl)).
Defined.

(** ** Calls *)

(** An accepted declaration knows the two dialects and no other. *)
Lemma precomputedSQL_styles sql load meth qm (style : string) :
  setOn sql load meth = Returns qm →
  is_Some (precomputedSQL (proxyMethod qm) !! style)
  ↔ style = "qmark" ∨ style = "pyformat".
Proof.
  intros (q & mq & p & mp & _ & _ & _ & _ & _ & _ & ->)%setOn_inv.
  cbn [proxyMethod precomputedSQL]. split.
  - intros [[styled m] H]. apply precomputedSQL_lookup in H. tauto.
  - intros [-> | ->].
    + rewrite lookup_insert_ne by done. rewrite lookup_insert_eq. by eexists.
    + rewrite lookup_insert_eq. by eexists.
Qed.

(** A call that binds executes the rendering of the connection's dialect. *)
Lemma body_binds sql load meth qm style styledSQL styledMap args kw bound :
  setOn sql load meth = Returns qm →
  precomputedSQL (proxyMethod qm) !! style = Some (styledSQL, styledMap) →
  bind (signature meth) (PyNone :: args) kw = Returns bound →
  ∃ params,
    queryArguments styledMap (apply_defaults (signature meth) bound)
      = Returns params ∧
    Forall2 (fun name val =>
               apply_defaults (signature meth) bound !! name = Some val)
            (names styledMap) params ∧
    ∀ respond,
      body (proxyMethod qm) (proxyOn style respond) args kw
      = handOff (proxyMethod qm) (proxyOn style respond)
          (mkCursor (respond styledSQL params) [Execute styledSQL params]).
Proof.
  intros Hset Hstyle Hbind.
  pose proof Hset as
    (q & mq & p' & mp & Hq & Hp & _ & _ & Hn & Hnames & ->)%setOn_inv.
  cbn [proxyMethod precomputedSQL] in Hstyle.
  assert (names styledMap = names mq) as Hm.
  { apply precomputedSQL_lookup in Hstyle as [(_&_&->)|(_&_&->)]; done. }
  destruct (lookupEach_total (apply_defaults (signature meth) bound)
              (names styledMap)) as [params Hparams].
  { eapply names_bound; [|done]. by rewrite Hm. }
  exists params. split_and!; [done|by apply lookupEach_Forall2|].
  intros respond. unfold body.
  cbn [proxyMethod precomputedSQL sig proxyOn __query_connection__ paramstyle].
  rewrite Hstyle, Hbind. unfold queryArguments in *. by rewrite Hparams.
Qed.

(** X8.  On a connection whose [paramstyle] is neither [qmark] nor
    [pyformat] every call of an accepted declaration fails with the
    [KeyError] of that style, whatever its arguments, before a cursor is
    opened. *)
Theorem unsupported_paramstyle_fails_before_cursor
    sql load meth qm style respond args kw :
  setOn sql load meth = Returns qm →
  style ≠ "qmark" → style ≠ "pyformat" →
  __await__ (call_proxyMethod (proxyMethod qm) (proxyOn style respond) args kw)
  = (Raises (KeyError style), mkCall None false).
Proof.
  intros Hset Hq Hp.
  destruct (precomputedSQL (proxyMethod qm) !! style) as [found|] eqn:Hstyle.
  - assert (is_Some (precomputedSQL (proxyMethod qm) !! style)) as H
      by (by rewrite Hstyle).
    apply (precomputedSQL_styles _ _ _ _ _ Hset) in H. tauto.
  - unfold __await__, call_proxyMethod, body. cbn [down].
    cbn [proxyOn __query_connection__ paramstyle]. by rewrite Hstyle.
Qed.

Lemma unsupported_paramstyle_fails_before_cursor_witness :
  __await__ (call_proxyMethod (proxyMethod (usersMetadata zero))
               (proxyOn "named" (fun _ _ => [])) [PyInt 7] ∅)
  = (Raises (KeyError "named"), mkCall None false).
Proof.
  apply (unsupported_paramstyle_fails_before_cursor usersSQL zero lookupUser).
  - vm_compute. reflexivity.
  - discriminate.
  - discriminate.
Defined.

Lemma bindKeywords_frame (params : list Param) :
  ∀ (kwargs a kwargs' a' : gmap string object) k,
  bindKeywords params kwargs a = Returns (kwargs', a') →
  k ∉ param_name <$> params →
  kwargs' !! k = kwargs !! k ∧ a' !! k = a !! k.
Proof.
  induction params as [|p ps IH]; intros kwargs a kwargs' a' k H Hk.
  - simpl in H. by injection H as <- <-.
  - rewrite fmap_cons in Hk. apply not_elem_of_cons in Hk as [Hne Hk].
    simpl in H. destruct (kwargs !! param_name p) as [v|].
    + destruct (IH _ _ _ _ _ H Hk) as [-> ->].
      by rewrite lookup_delete_ne, lookup_insert_ne.
    + destruct (param_default p); [|done]. by eapply IH.
Qed.

Lemma bindKeywords_given (params : list Param) :
  ∀ (kwargs a kwargs' a' : gmap string object) p v,
  bindKeywords params kwargs a = Returns (kwargs', a') →
  NoDup (param_name <$> params) → p ∈ params →
  kwargs !! param_name p = Some v →
  a' !! param_name p = Some v.
Proof.
  induction params as [|q ps IH]; intros kwargs a kwargs' a' p v H Hnd Hp Hv.
  - by apply elem_of_nil in Hp.
  - rewrite fmap_cons in Hnd. apply NoDup_cons in Hnd as [Hq Hnd].
    simpl in H. apply elem_of_cons in Hp as [->|Hp].
    + rewrite Hv in H.
      destruct (bindKeywords_frame _ _ _ _ _ _ H Hq) as [_ ->].
      by rewrite lookup_insert_eq.
    + assert (param_name q ≠ param_name p) as Hne.
      { intros Heq. apply Hq. rewrite Heq. apply list_elem_of_fmap. eauto. }
      destruct (kwargs !! param_name q) as [w|].
      * eapply IH; [exact H|done|done|]. by rewrite lookup_delete_ne.
      * destruct (param_default q); [|done]. by eapply IH.
Qed.

(** A keyword argument is what [bound.arguments] holds for the parameter of
    its name. *)
Lemma bind_keyword sig args kwargs bound (j : nat) p v :
  NoDup (parameters sig) → sig !! j = Some p → length args ≤ j →
  kwargs !! param_name p = Some v →
  bind sig args kwargs = Returns bound →
  bound !! param_name p = Some v.
Proof.
  intros Hnd Hj Hlen Hkw (rest & a & kw' & H1 & H2)%bind_inv.
  apply bindPositional_inv in H1 as (consumed & -> & Hc & _).
  unfold parameters in Hnd. rewrite fmap_app in Hnd.
  apply NoDup_app in Hnd as (_ & _ & Hnd).
  rewrite lookup_app_r in Hj by lia.
  eapply bindKeywords_given; [exact H2|done| |done].
  by eapply list_elem_of_lookup_2.
Qed.

Lemma apply_defaults_resolved sig args kwargs bound (j : nat) p :
  NoDup (parameters sig) → sig !! j = Some p →
  bind sig args kwargs = Returns bound →
  apply_defaults sig bound !! param_name p = resolved args kwargs j p.
Proof.
  intros Hnd Hj Hbind. unfold resolved.
  assert (p ∈ sig) as Hp by (by eapply list_elem_of_lookup_2).
  destruct (args !! j) as [v|] eqn:Hv.
  - by eapply bind_positional.
  - apply lookup_ge_None in Hv.
    destruct (kwargs !! param_name p) as [v|] eqn:Hkw.
    + apply apply_defaults_given; [done|done|]. by eapply bind_keyword.
    + pose proof (bind_omitted _ _ _ _ _ _ Hnd Hj Hv Hkw Hbind) as Hnone.
      destruct (param_default p) as [d|] eqn:Hd.
      * by apply apply_defaults_default.
      * destruct (bind_covers _ _ _ _ p Hbind Hp) as [[? H]|[? H]]; congruence.
Qed.

Lemma executed_params_resolved
    sql load meth qm style styledSQL styledMap args kw bound params :
  setOn sql load meth = Returns qm →
  NoDup (parameters (signature meth)) →
  precomputedSQL (proxyMethod qm) !! style = Some (styledSQL, styledMap) →
  bind (signature meth) (PyNone :: args) kw = Returns bound →
  queryArguments styledMap (apply_defaults (signature meth) bound)
    = Returns params →
  length params = length (names styledMap) ∧
  ∀ (i j : nat) p,
    names styledMap !! i = Some (param_name p) →
    signature meth !! j = Some p →
    params !! i = resolved (PyNone :: args) kw j p.
Proof.
  intros Hset Hnd Hstyle Hbind Hparams.
  apply lookupEach_Forall2 in Hparams. split.
  - symmetry. by eapply Forall2_length.
  - intros i j p Hi Hj.
    destruct (Forall2_lookup_l _ _ _ _ _ Hparams Hi) as (v & -> & Hv).
    rewrite <- Hv. by apply apply_defaults_resolved.
Qed.

(** X9.  In a call that binds, every position of the parameter list the
    statement is executed with holds the value of the parameter the
    rendering names there: its positional argument, else its keyword
    argument, else its default.  The list is as long as the recorded
    order. *)
Theorem executed_parameters_are_resolved_arguments
    sql load meth qm style styledSQL styledMap args kw bound :
  setOn sql load meth = Returns qm →
  NoDup (parameters (signature meth)) →
  precomputedSQL (proxyMethod qm) !! style = Some (styledSQL, styledMap) →
  bind (signature meth) (PyNone :: args) kw = Returns bound →
  ∃ params,
    length params = length (names styledMap) ∧
    (∀ (i j : nat) p,
       names styledMap !! i = Some (param_name p) →
       signature meth !! j = Some p →
       params !! i = resolved (PyNone :: args) kw j p) ∧
    ∀ respond,
      body (proxyMethod qm) (proxyOn style respond) args kw
      = handOff (proxyMethod qm) (proxyOn style respond)
          (mkCursor (respond styledSQL params) [Execute styledSQL params]).
Proof.
  intros Hset Hnd Hstyle Hbind.
  destruct (body_binds _ _ _ _ _ _ _ _ _ _ Hset Hstyle Hbind)
    as (params & Hparams & _ & Hbody).
  exists params.
  destruct (executed_params_resolved _ _ _ _ _ _ _ _ _ _ _
              Hset Hnd Hstyle Hbind Hparams) as [Hlen Hres].
  by split_and!.
Qed.

Lemma executed_parameters_are_resolved_arguments_witness :
  ∃ params,
    params = [PyInt 21; PyInt 21; PyInt 5] ∧
    ∀ respond,
      body (proxyMethod (adultsMetadata zero)) (proxyOn "pyformat" respond)
           [PyInt 5] {["minimum" := PyInt 21]}
      = handOff (proxyMethod (adultsMetadata zero)) (proxyOn "pyformat" respond)
          (mkCursor
             (respond "SELECT name FROM users WHERE age >= %s AND rank >= %s LIMIT %s"
                      params)
             [Execute "SELECT name FROM users WHERE age >= %s AND rank >= %s LIMIT %s"
                      params]).
Proof.
  destruct (executed_parameters_are_resolved_arguments adultsSQL zero listAdults
              (adultsMetadata zero) "pyformat"
              "SELECT name FROM users WHERE age >= %s AND rank >= %s LIMIT %s"
              (mkMap "%s" ["minimum"; "minimum"; "limit"])
              [PyInt 5] {["minimum" := PyInt 21]}
              {["self" := PyNone; "limit" := PyInt 5; "minimum" := PyInt 21]})
    as (params & Hlen & Hres & Hbody).
  - vm_compute. reflexivity.
  - apply (bool_decide_unpack (NoDup ["self"; "limit"; "minimum"])).
    vm_compute. exact I.
  - vm_compute. reflexivity.
  - vm_compute. reflexivity.
  - exists params. split; [|exact Hbody].
    pose proof (Hres 0 2 (mkParam "minimum" (Some (PyInt 18))) eq_refl eq_refl)
      as H0.
    pose proof (Hres 1 2 (mkParam "minimum" (Some (PyInt 18))) eq_refl eq_refl)
      as H1.
    pose proof (Hres 2 1 (mkParam "limit" None) eq_refl eq_refl) as H2.
    vm_compute in H0, H1, H2. simpl in Hlen.
    destruct params as [|a [|b [|c [|d params]]]]; try discriminate Hlen.
    simpl in H0, H1, H2. by simplify_eq.
Defined.

(** X10.  Two calls of one accepted declaration that give every parameter
    the same value, however the values are split between positional and
    keyword arguments and defaults, execute the statement with the same
    parameter list. *)
Theorem calling_convention_is_immaterial
    sql load meth qm style styledSQL styledMap args1 kw1 bound1 args2 kw2 bound2 :
  setOn sql load meth = Returns qm →
  NoDup (parameters (signature meth)) →
  precomputedSQL (proxyMethod qm) !! style = Some (styledSQL, styledMap) →
  bind (signature meth) (PyNone :: args1) kw1 = Returns bound1 →
  bind (signature meth) (PyNone :: args2) kw2 = Returns bound2 →
  (∀ (j : nat) p, signature meth !! j = Some p →
                  resolved (PyNone :: args1) kw1 j p
                  = resolved (PyNone :: args2) kw2 j p) →
  ∀ respond,
    body (proxyMethod qm) (proxyOn style respond) args1 kw1
    = body (proxyMethod qm) (proxyOn style respond) args2 kw2.
Proof.
  intros Hset Hnd Hstyle Hbind1 Hbind2 Hsame respond.
  destruct (body_binds _ _ _ _ _ _ _ _ _ _ Hset Hstyle Hbind1)
    as (params1 & Hparams1 & _ & ->).
  destruct (body_binds _ _ _ _ _ _ _ _ _ _ Hset Hstyle Hbind2)
    as (params2 & Hparams2 & _ & ->).
  assert (apply_defaults (signature meth) bound1
          = apply_defaults (signature meth) bound2) as Heq.
  { apply map_eq. intros k.
    destruct (decide (k ∈ parameters (signature meth))) as [Hk|Hk].
    - apply list_elem_of_fmap in Hk as (p & -> & Hp).
      apply list_elem_of_lookup in Hp as [j Hj].
      rewrite (apply_defaults_resolved _ _ _ _ _ _ Hnd Hj Hbind1).
      rewrite (apply_defaults_resolved _ _ _ _ _ _ Hnd Hj Hbind2).
      by apply Hsame.
    - rewrite !apply_defaults_eq. unfold dict.
      rewrite !foldl_insert_notin; [done| |].
      + intros Hin. apply Hk.
        eapply elem_of_sublist; [exact Hin | apply defaulted_keys].
      + intros Hin. apply Hk.
        eapply elem_of_sublist; [exact Hin | apply defaulted_keys]. }
  rewrite Heq in Hparams1. rewrite Hparams1 in Hparams2.
  by injection Hparams2 as ->.
Qed.

Lemma calling_convention_is_immaterial_witness :
  body (proxyMethod (usersMetadata zero)) (proxyOn "qmark" (λ _ _, []))
       [PyInt 7] ∅
  = body (proxyMethod (usersMetadata zero)) (proxyOn "qmark" (λ _ _, []))
         [] {["userId" := PyInt 7]}.
Proof.
  generalize (λ (_ : string) (_ : list object), @nil (list object)).
  apply (calling_convention_is_immaterial usersSQL zero lookupUser
           (usersMetadata zero) "qmark"
           "SELECT name FROM users WHERE id = ?" (mkMap "?" ["userId"])
           [PyInt 7] ∅ {["self" := PyNone; "userId" := PyInt 7]}
           [] {["userId" := PyInt 7]}
           {["self" := PyNone; "userId" := PyInt 7]}).
  - vm_compute. reflexivity.
  - apply (bool_decide_unpack (NoDup ["self"; "userId"])).
    vm_compute. exact I.
  - vm_compute. reflexivity.
  - vm_compute. reflexivity.
  - vm_compute. reflexivity.
  - intros [|[|j]] p Hj; vm_compute in Hj; [by injection Hj as <-..|done].
Defined.

(** A call whose arguments do not bind has opened its cursor and done
    nothing else with it. *)
Lemma body_bind_fails sql load meth qm style respond args kw e :
  setOn sql load meth = Returns qm →
  style = "qmark" ∨ style = "pyformat" →
  bind (signature meth) (PyNone :: args) kw = Raises e →
  body (proxyMethod qm) (proxyOn style respond) args kw
  = (Raises e, mkCall (Some (mkCursor [] [])) false).
Proof.
  intros Hset Hstyle Hbind.
  apply (precomputedSQL_styles _ _ _ _ _ Hset) in Hstyle as [[styled m] Hs].
  apply setOn_inv in Hset as (q & mq & p & mp & _ & _ & _ & _ & _ & _ & ->).
  unfold body.
  cbn [proxyMethod precomputedSQL sig proxyOn __query_connection__ paramstyle]
    in *.
  by rewrite Hs, Hbind.
Qed.

Lemma bind_leaves_no_keyword sig args kwargs bound :
  bind sig args kwargs = Returns bound →
  ∃ rest arguments,
    bindPositional sig args kwargs ∅ = Returns (rest, arguments) ∧
    bindKeywords rest kwargs arguments = Returns (∅, bound).
Proof.
  unfold bind. intros H.
  destruct (bindPositional sig args kwargs ∅) as [[rest arguments]|] eqn:H1;
    [|done].
  simpl in H.
  destruct (bindKeywords rest kwargs arguments) as [[kwargs' a']|] eqn:H2;
    [|done].
  simpl in H. case_decide as Hkw; [|done]. injection H as ->. subst kwargs'.
  by exists rest, arguments.
Qed.

(** The ways a call can fail to bind. *)
Lemma bind_too_many sig args kwargs bound :
  bind sig args kwargs = Returns bound → length args ≤ length sig.
Proof.
  intros (rest & a & kw' & H1 & _)%bind_inv.
  apply bindPositional_inv in H1 as (consumed & -> & Hlen & _).
  rewrite length_app. lia.
Qed.

Lemma bind_unexpected_keyword sig args kwargs bound k :
  bind sig args kwargs = Returns bound →
  is_Some (kwargs !! k) → k ∈ parameters sig.
Proof.
  intros (rest & a & H1 & H2)%bind_leaves_no_keyword Hk.
  apply bindPositional_inv in H1 as (consumed & -> & _).
  destruct (decide (k ∈ param_name <$> rest)) as [Hin|Hnot].
  - unfold parameters. rewrite fmap_app. apply elem_of_app. by right.
  - destruct (bindKeywords_frame _ _ _ _ _ _ H2 Hnot) as [Hempty _].
    rewrite lookup_empty in Hempty. rewrite <- Hempty in Hk.
    by destruct Hk.
Qed.

Lemma bind_multiple_values sig args kwargs bound (j : nat) p :
  bind sig args kwargs = Returns bound →
  sig !! j = Some p → j < length args → kwargs !! param_name p = None.
Proof.
  intros (rest & a & kw' & H1 & _)%bind_inv Hj Hlt.
  apply bindPositional_inv in H1 as (consumed & -> & Hlen & Hin & _).
  rewrite lookup_app_l in Hj by lia.
  apply Hin. by eapply list_elem_of_lookup_2.
Qed.

Lemma bind_missing sig args kwargs bound (j : nat) p :
  NoDup (parameters sig) →
  bind sig args kwargs = Returns bound →
  sig !! j = Some p → length args ≤ j → kwargs !! param_name p = None →
  is_Some (param_default p).
Proof.
  intros Hnd Hbind Hj Hge Hkw.
  pose proof (bind_omitted _ _ _ _ _ _ Hnd Hj Hge Hkw Hbind) as Hnone.
  destruct (bind_covers _ _ _ _ p Hbind) as [[? H]|H]; [|congruence|done].
  by eapply list_elem_of_lookup_2.
Qed.

(** X11.  A call with more positional arguments than the method has
    parameters after the receiver, with a keyword that names no parameter,
    with a keyword for a parameter that a positional argument already
    reaches, or without a value for a parameter that has no default, fails
    with [TypeError].  By then the cursor has been opened; nothing is
    executed on it and it is not closed. *)
Theorem unbindable_call_fails_with_open_cursor
    sql load meth qm style respond args kw :
  setOn sql load meth = Returns qm →
  style = "qmark" ∨ style = "pyformat" →
  NoDup (parameters (signature meth)) →
  length (signature meth) < length (PyNone :: args) ∨
  (∃ k, is_Some (kw !! k) ∧ k ∉ parameters (signature meth)) ∨
  (∃ (j : nat) p, signature meth !! j = Some p ∧ j < length (PyNone :: args) ∧
                  is_Some (kw !! param_name p)) ∨
  (∃ (j : nat) p, signature meth !! j = Some p ∧ length (PyNone :: args) ≤ j ∧
                  kw !! param_name p = None ∧ param_default p = None) →
  ∃ msg,
    __await__ (call_proxyMethod (proxyMethod qm) (proxyOn style respond) args kw)
    = (Raises (TypeError msg), mkCall (Some (mkCursor [] [])) false).
Proof.
  intros Hset Hstyle Hnd Hcase.
  destruct (bind (signature meth) (PyNone :: args) kw) as [bound|e] eqn:Hbind.
  - exfalso.
    destruct Hcase as [Hmany|[(k & Hk & Hnot)|[(j & p & Hj & Hlt & Hk)
                      |(j & p & Hj & Hge & Hk & Hd)]]].
    + apply bind_too_many in Hbind. lia.
    + by apply Hnot, (bind_unexpected_keyword _ _ _ _ _ Hbind).
    + rewrite (bind_multiple_values _ _ _ _ _ _ Hbind Hj Hlt) in Hk.
      by destruct Hk.
    + destruct (bind_missing _ _ _ _ _ _ Hnd Hbind Hj Hge Hk) as [d Hsome].
      congruence.
  - destruct (bind_raises _ _ _ _ Hbind) as [msg ->]. exists msg.
    unfold __await__, call_proxyMethod. cbn [down].
    by eapply body_bind_fails.
Qed.

Lemma unbindable_call_fails_with_open_cursor_witness :
  ∃ msg,
    __await__ (call_proxyMethod (proxyMethod (usersMetadata zero))
                 (proxyOn "qmark" (fun _ _ => [])) [] ∅)
    = (Raises (TypeError msg), mkCall (Some (mkCursor [] [])) false).
Proof.
  apply (unbindable_call_fails_with_open_cursor usersSQL zero lookupUser).
  - vm_compute. reflexivity.
  - by left.
  - apply (bool_decide_unpack (NoDup ["self"; "userId"])).
    vm_compute. exact I.
  - right. right. right. exists 1, (mkParam "userId" None).
    split_and!; [reflexivity | simpl; lia | reflexivity | reflexivity].
Defined.

(** ** Loaders *)







(** ** The result object *)

(** X14.  Iterating the result of a [many] call whose statement has been
    executed: whatever the loader does with the rows and however many
    elements the consumer asks for before it abandons the iterator, the
    cursor has been closed exactly once in the end, the iterator is
    finished, and asking it again or closing it again does nothing.  An
    iterator that is abandoned before its first element has opened no
    cursor. *)
Theorem iteration_closes_cursor_exactly_once caller load pm db cur (n : nat) :
  self_load pm db = many caller load db → closes cur = 0 →
  let self := mkMaybeAIterable (handOff pm db cur) in
  let it := (consumeAndClose (S n) self).2 in
  phase it = Finished ∧ closed (state it) = 1 ∧
  aiter_anext self it = (Return, it) ∧ aiter_aclose it = it ∧
  consumeAndClose 0 self = ([], None, mkAiter Finished (mkCall None false)).
Proof.
  intros Hload Hc self it.
  assert (phase it = Finished) as Hphase.
  { unfold it, consumeAndClose. destruct (consume _ _ _) as [[vs fin] it'].
    cbn. unfold aiter_aclose. by destruct (phase it'). }
  assert (closed (state it) = 1) as Hclosed.
  { unfold it, consumeAndClose.
    destruct (consume _ _ _) as [[vs fin] it'] eqn:H. cbn [snd].
    cbn [consume] in H. unfold aiter_anext, __aiter__, __await__ in H.
    cbn [phase down self] in H. unfold handOff in H. rewrite Hload in H.
    cbn [many] in H.
    change (forward ?g ?st) with
      (aiter_anext self (mkAiter (Streaming g) st)) in H.
    eapply (consume_streaming_closes _ _ _ _ (S n)); [exact Hc|].
    cbn [consume]. exact H. }
  clearbody it. destruct it as [ph st]. cbn in Hphase. subst ph.
  by split_and!.
Qed.

Lemma iteration_closes_cursor_exactly_once_witness :
  closed
    (state
       (consumeAndClose 1
          (mkMaybeAIterable
             (handOff (proxyMethod (usersMetadata (many classBody userName)))
                (proxyOn "qmark" (fun _ _ => []))
                (mkCursor [[PyStr "ada"]; [PyStr "bob"]] [])))).2) = 1.
Proof.
  exact (proj1 (proj2
           (iteration_closes_cursor_exactly_once classBody userName
              (proxyMethod (usersMetadata (many classBody userName)))
              (proxyOn "qmark" (fun _ _ => []))
              (mkCursor [[PyStr "ada"]; [PyStr "bob"]] []) 0
              eq_refl eq_refl))).
Defined.

(** [body] hands the cursor to the result object exactly when it delivers
    an async generator. *)
Lemma body_hands_cursor_over pm db args kw :
  maybeai_cursor (body pm db args kw).2 = true
  ↔ ∃ gen, (body pm db args kw).1 = Returns (Stream gen).
Proof.
  unfold body.
  destruct (precomputedSQL pm !! _) as [[styledSQL styledMap]|];
    [|cbn; split; [done|by intros [? ?]]].
  destruct (bind _ _ _) as [bound|e];
    [|cbn; split; [done|by intros [? ?]]].
  destruct (queryArguments _ _) as [params|e];
    [|cbn; split; [done|by intros [? ?]]].
  unfold handOff. destruct (self_load pm db) as [co|gen].
  - destruct (co _) as [[result|e] c]; cbn; split; try done; by intros [? ?].
  - cbn. split; [by eexists|done].
Qed.

(** X15.  Iterating a result object whose call does not deliver an async
    generator, because the dialect is unknown, the arguments do not bind,
    or the declaration's loader is one to await, fails with
    [AttributeError]: the [finally] clause reads a [cursor] attribute that
    was never assigned.  The exception of the call itself is not what the
    caller sees, and the clause closes nothing: the cursor is as the call
    left it. *)
Theorem iterating_without_generator_raises_AttributeError pm db args kw :
  (∀ gen, (body pm db args kw).1 ≠ Returns (Stream gen)) →
  let self := call_proxyMethod pm db args kw in
  aiter_anext self (__aiter__ self)
  = (Throw (AttributeError "cursor"), mkAiter Finished (body pm db args kw).2) ∧
  ∀ n : nat,
    consumeAndClose (S n) self
    = ([], Some (Throw (AttributeError "cursor")),
       mkAiter Finished (body pm db args kw).2).
Proof.
  intros Hnot self.
  assert (maybeai_cursor (body pm db args kw).2 = false) as Hflag.
  { destruct (maybeai_cursor (body pm db args kw).2) eqn:H; [|done].
    apply body_hands_cursor_over in H as [gen H]. by apply Hnot in H. }
  assert (aiter_anext self (__aiter__ self)
          = (Throw (AttributeError "cursor"),
             mkAiter Finished (body pm db args kw).2)) as Hnext.
  { unfold aiter_anext, __aiter__, __await__, self, call_proxyMethod.
    cbn [phase down].
    destruct (body pm db args kw) as [[[v|gen]|e] st] eqn:Hbody;
      cbn in Hflag |- *.
    - unfold finallyClose. by rewrite Hflag.
    - by destruct (Hnot gen).
    - unfold finallyClose. by rewrite Hflag. }
  split; [done|]. intros n. unfold consumeAndClose. cbn [consume].
  by rewrite Hnext.
Qed.

Lemma iterating_without_generator_raises_AttributeError_witness :
  aiter_anext
    (call_proxyMethod (proxyMethod (usersMetadata (many classBody userName)))
       (proxyOn "qmark" (fun _ _ => [])) [] ∅)
    (__aiter__
       (call_proxyMethod (proxyMethod (usersMetadata (many classBody userName)))
          (proxyOn "qmark" (fun _ _ => [])) [] ∅))
  = (Throw (AttributeError "cursor"),
     mkAiter Finished (mkCall (Some (mkCursor [] [])) false)).
Proof.
  refine (proj1 (iterating_without_generator_raises_AttributeError
                   (proxyMethod (usersMetadata (many classBody userName)))
                   (proxyOn "qmark" (fun _ _ => [])) [] ∅ _)).
  intros gen. vm_compute. discriminate.
Defined.

(** X16.  What the driver sees of a call that gets as far as executing its
    statement, in order.  Awaited [one] query with one row the loader
    accepts: execute, fetch all, close.  Awaited statement that returns no
    row: execute, fetch one, close.  Iterated [many] query over rows the
    loader accepts: execute, one fetch per row and one more, close. *)
Theorem driver_calls_in_order
    params renderings style styledSQL styledMap args kw bound sent respond :
  renderings !! style = Some (styledSQL, styledMap) →
  bind params (PyNone :: args) kw = Returns bound →
  queryArguments styledMap (apply_defaults params bound) = Returns sent →
  let db := proxyOn style respond in
  let rows := respond styledSQL sent in
  (∀ caller load row v,
     rows = [row] → call load db row = Returns v →
     __await__ (call_proxyMethod
                  (mkProxyMethod params renderings (one caller load)) db args kw)
     = (Returns (Value v),
        mkCall (Some (mkCursor [] [Execute styledSQL sent; Fetchall; Close]))
               false)) ∧
  (rows = [] →
   __await__ (call_proxyMethod (mkProxyMethod params renderings zero) db args kw)
   = (Returns (Value PyNone),
      mkCall (Some (mkCursor [] [Execute styledSQL sent; Fetchone; Close]))
             false)) ∧
  (∀ caller load vs (fuel : nat),
     Forall2 (fun row v => call load db row = Returns v) rows vs →
     length rows < fuel →
     let self :=
       call_proxyMethod (mkProxyMethod params renderings (many caller load))
         db args kw in
     consume fuel self (__aiter__ self)
     = (vs, Some Return,
        mkAiter Finished
          (mkCall
             (Some (mkCursor []
                      ([Execute styledSQL sent]
                         ++ replicate (S (length rows)) Fetchone ++ [Close])))
             true))).
Proof.
  intros Hstyle Hbind Hsent db rows.
  assert (∀ load,
            body (mkProxyMethod params renderings load) db args kw
            = handOff (mkProxyMethod params renderings load) db
                (mkCursor rows [Execute styledSQL sent])) as Hbody.
  { intros load. unfold body.
    cbn [precomputedSQL sig db proxyOn __query_connection__ paramstyle].
    by rewrite Hstyle, Hbind, Hsent. }
  split_and!.
  - intros caller load row v Hrows Hv.
    unfold __await__, call_proxyMethod. cbn [down]. rewrite Hbody, Hrows.
    unfold handOff, one, _makeTranslator, await, fetchall, lift, loadRow.
    cbn. by rewrite Hv.
  - intros Hrows. unfold __await__, call_proxyMethod. cbn [down].
    by rewrite Hbody, Hrows.
  - intros caller load vs fuel Hvs Hfuel self.
    rewrite <- (consume_many_all (create caller load) load db self rows vs
                  [Execute styledSQL sent] fuel Hvs Hfuel).
    destruct fuel as [|fuel]; [lia|].
    cbn [consume]. unfold aiter_anext, __aiter__, __await__, self,
      call_proxyMethod. cbn [phase down state]. rewrite Hbody. reflexivity.
Qed.

Lemma driver_calls_in_order_witness :
  __await__ (call_proxyMethod
               (mkProxyMethod (signature lookupUser)
                  (precomputedSQL (proxyMethod (usersMetadata zero)))
                  (one classBody userName))
               (proxyOn "qmark" (fun _ _ => [[PyStr "ada"]])) [PyInt 7] ∅)
  = (Returns (Value (PyStr "ada")),
     mkCall (Some (mkCursor []
                     [Execute "SELECT name FROM users WHERE id = ?" [PyInt 7];
                      Fetchall; Close]))
            false).
Proof.
  refine (proj1 (driver_calls_in_order (signature lookupUser)
                   (precomputedSQL (proxyMethod (usersMetadata zero)))
                   "qmark" "SELECT name FROM users WHERE id = ?"
                   (mkMap "?" ["userId"]) [PyInt 7] ∅
                   {["self" := PyNone; "userId" := PyInt 7]} [PyInt 7]
                   (fun _ _ => [[PyStr "ada"]]) _ _ _)
            classBody userName [PyStr "ada"] (PyStr "ada") eq_refl eq_refl);
    vm_compute; reflexivity.
Defined.

(** ** The accessor's namespace *)

Lemma accessor_eq (ignored : gset string) (protocol : ProtocolClass) :
  accessor ignored protocol
  = match extraneousNames ignored (__dict__ protocol) with
    | [] =>
        Returns (mkType ("_" +:+ class_name protocol +:+ "_Accessor")
                   ["AccessProxy"]
                   (dict (boundClosures (__dict__ protocol))))
    | name :: others => Raises (ExtraneousMethods (name :: others))
    end.
Proof.
  unfold accessor, filterProtocolNamespace.
  rewrite filterLoop_eq. simpl.
  destruct (extraneousNames ignored (__dict__ protocol)); [|done].
  by rewrite yielded_closures.
Qed.

Lemma boundClosures_keys (ns : list (string * NamespaceValue)) :
  (boundClosures ns).*1 `sublist_of` ns.*1.
Proof.
  induction ns as [|[name value] ns IH]; [done|].
  destruct value as [|qm]; cbn.
  - by apply sublist_cons.
  - by apply sublist_skip.
Qed.

Lemma NoDup_fst_agree {A} (l : list (string * A)) k v1 v2 :
  NoDup l.*1 → (k, v1) ∈ l → (k, v2) ∈ l → v1 = v2.
Proof.
  induction l as [|[k' v'] l IH]; intros Hnd H1 H2.
  - by apply elem_of_nil in H1.
  - cbn in Hnd. apply NoDup_cons in Hnd as [Hk Hnd].
    assert (∀ v, (k', v) ∈ l → False) as Hfresh.
    { intros v Hv. apply Hk. apply list_elem_of_fmap. by exists (k', v). }
    apply elem_of_cons in H1 as [H1|H1];
      apply elem_of_cons in H2 as [H2|H2].
    + congruence.
    + injection H1 as -> ->. by destruct (Hfresh _ H2).
    + injection H2 as -> ->. by destruct (Hfresh _ H1).
    + by apply IH.
Qed.

(** X17.  In the proxy type that [accessor] builds from a class namespace,
    whose attribute names are distinct, looking a name up gives the
    [proxyMethod] closure of the metadata attached to that attribute, and
    nothing for an attribute without metadata or a name the class does not
    have. *)
Theorem accessor_namespace_lookup ignored protocol proxyType name :
  NoDup (__dict__ protocol).*1 →
  accessor ignored protocol = Returns proxyType →
  type_name proxyType = "_" +:+ class_name protocol +:+ "_Accessor" ∧
  (∀ value, (name, value) ∈ __dict__ protocol →
            namespace proxyType !! name = proxyMethod <$> loadFrom value) ∧
  (name ∉ (__dict__ protocol).*1 → namespace proxyType !! name = None).
Proof.
  intros Hnd Hacc. rewrite accessor_eq in Hacc.
  destruct (extraneousNames ignored (__dict__ protocol)); [|done].
  injection Hacc as <-. cbn [type_name namespace].
  assert (NoDup (boundClosures (__dict__ protocol)).*1) as Hnd'
    by (eapply sublist_NoDup; [exact Hnd | apply boundClosures_keys]).
  assert (∀ k pm, (k, pm) ∈ boundClosures (__dict__ protocol) →
                  ∃ qm, (k, QueryMethod qm) ∈ __dict__ protocol ∧
                        pm = proxyMethod qm) as Hfrom.
  { intros k pm ([k' value] & Hin & Hsome)%list_elem_of_omap.
    destruct value as [|qm]; [done|]. cbn in Hsome. injection Hsome as <- <-.
    by exists qm. }
  split_and!; [done| |].
  - intros value Hin. destruct value as [|qm]; cbn.
    + unfold dict. rewrite foldl_insert_notin; [done|].
      intros ([k pm] & -> & Hk)%list_elem_of_fmap.
      apply Hfrom in Hk as (qm & Hqm & _). cbn in Hin.
      by pose proof (NoDup_fst_agree _ _ _ _ Hnd Hin Hqm).
    + apply dict_nodup; [done|]. apply list_elem_of_omap.
      by exists (name, QueryMethod qm).
  - intros Hname. unfold dict. rewrite foldl_insert_notin; [done|].
    intros Hin. apply Hname.
    eapply elem_of_sublist; [exact Hin | apply boundClosures_keys].
Qed.

Lemma accessor_namespace_lookup_witness :
  ∃ proxyType,
    accessor {["__module__"; "__doc__"; "__dict__"; "__weakref__"]} Users
      = Returns proxyType ∧
    namespace proxyType !! "lookupUser"
      = Some (proxyMethod (usersMetadata (one classBody userName))).
Proof.
  eexists. split; [vm_compute; reflexivity|].
  refine (proj1 (proj2 (accessor_namespace_lookup
                          {["__module__"; "__doc__"; "__dict__"; "__weakref__"]}
                          Users _ "lookupUser" _ _))
            (QueryMethod (usersMetadata (one classBody userName))) _).
  - apply (bool_decide_unpack
             (NoDup ["__module__"; "__doc__"; "lookupUser"; "__dict__";
                     "__weakref__"])).
    vm_compute. exact I.
  - vm_compute. reflexivity.
  - cbn. do 2 apply list_elem_of_further. apply list_elem_of_here.
Defined.
